(** * app.js: hash router, carousel, result filter, map range and detail view

    A shallow embedding of the page script [app.js].  JavaScript strings are
    sequences of UTF-16 code units, numbers that the script only counts with
    are integers ([Z]), the coordinates of the pseudo map are IEEE 754
    doubles (Rocq's primitive floats), and every function that touches the
    document is a state transformer on the part of the document it reads or
    writes, with JavaScript exceptions made explicit. *)

From Stdlib Require Import ZArith NArith Lia String Ascii Floats.
From stdpp Require Import base option list gmap sets.

Local Open Scope Z_scope.

(** ** JavaScript strings *)

Module JS.

(** A string value: its UTF-16 code units. *)
Definition jsstr := list N.

(** Source literals are written in UTF-8 in this file and decoded to code
    points, then encoded as UTF-16 (surrogate pairs above U+FFFF). *)
Fixpoint utf8_points (bs : list N) : list N :=
  match bs with
  | [] => []
  | b0 :: r0 =>
    if (b0 <? 128)%N then b0 :: utf8_points r0
    else if (b0 <? 224)%N then
      match r0 with
      | b1 :: r1 => ((b0 mod 32) * 64 + b1 mod 64)%N :: utf8_points r1
      | [] => []
      end
    else if (b0 <? 240)%N then
      match r0 with
      | b1 :: b2 :: r2 =>
        ((b0 mod 16) * 4096 + (b1 mod 64) * 64 + b2 mod 64)%N :: utf8_points r2
      | _ => []
      end
    else
      match r0 with
      | b1 :: b2 :: b3 :: r3 =>
        ((b0 mod 8) * 262144 + (b1 mod 64) * 4096 + (b2 mod 64) * 64 + b3 mod 64)%N
          :: utf8_points r3
      | _ => []
      end
  end.

Definition utf16_units (cp : N) : list N :=
  if (cp <? 65536)%N then [cp]
  else [(55296 + (cp - 65536) / 1024)%N; (56320 + (cp - 65536) mod 1024)%N].

Definition js (s : string) : jsstr :=
  mbind utf16_units (utf8_points (N_of_ascii <$> list_ascii_of_string s)).

(** [a === b] on strings. *)
Definition str_eqb (a b : jsstr) : bool := bool_decide (a = b).

(** [s.startsWith(p)] *)
Fixpoint startsWith (s p : jsstr) : bool :=
  match p, s with
  | [], _ => true
  | _ :: _, [] => false
  | c :: p', d :: s' => (c =? d)%N && startsWith s' p'
  end.

(** [s.includes(k)]: [k] occurs at some position of [s]. *)
Fixpoint includes (s k : jsstr) : bool :=
  startsWith s k ||
  match s with
  | [] => false
  | _ :: s' => includes s' k
  end.

(** [s.replace(c, '')] for a one-unit pattern [c]: the first occurrence goes. *)
Fixpoint remove_first (c : N) (s : jsstr) : jsstr :=
  match s with
  | [] => []
  | d :: s' => if (d =? c)%N then s' else d :: remove_first c s'
  end.

(** [s.split(c)] for a one-unit separator [c]. *)
Fixpoint split_at (c : N) (s : jsstr) : list jsstr :=
  match s with
  | [] => [[]]
  | d :: s' =>
    if (d =? c)%N then [] :: split_at c s'
    else
      match split_at c s' with
      | [] => [[d]]
      | p :: ps => (d :: p) :: ps
      end
  end.

(** [x || d] where [x] is a string or [undefined]: the empty string is falsy. *)
Definition or_default (x : option jsstr) (d : jsstr) : jsstr :=
  match x with
  | Some (c :: r) => c :: r
  | _ => d
  end.

(** White space and line terminators of ECMAScript, the units [trim] strips. *)
Definition is_white (c : N) : bool :=
  (9 <=? c)%N && (c <=? 13)%N
  || (c =? 32)%N || (c =? 160)%N || (c =? 5760)%N
  || (8192 <=? c)%N && (c <=? 8202)%N
  || (c =? 8232)%N || (c =? 8233)%N || (c =? 8239)%N || (c =? 8287)%N
  || (c =? 12288)%N || (c =? 65279)%N.

Fixpoint trimStart (s : jsstr) : jsstr :=
  match s with
  | [] => []
  | c :: s' => if is_white c then trimStart s' else s
  end.

Definition trimEnd (s : jsstr) : jsstr := reverse (trimStart (reverse s)).

(** [s.trim()] *)
Definition trim (s : jsstr) : jsstr := trimEnd (trimStart s).

(** [a.join(sep)] on an array of strings. *)
Fixpoint join (sep : jsstr) (a : list jsstr) : jsstr :=
  match a with
  | [] => []
  | [x] => x
  | x :: r => x ++ sep ++ join sep r
  end.

(** [encodeURIComponent(s)]: every code point outside the unreserved set is
    written as the percent-escaped bytes of its UTF-8 form; a lone surrogate
    raises [URIError], here [None]. *)
Definition uri_unreserved (c : N) : bool :=
  (65 <=? c)%N && (c <=? 90)%N || (97 <=? c)%N && (c <=? 122)%N
  || (48 <=? c)%N && (c <=? 57)%N
  || (c =? 45)%N || (c =? 95)%N || (c =? 46)%N || (c =? 33)%N || (c =? 126)%N
  || (c =? 42)%N || (c =? 39)%N || (c =? 40)%N || (c =? 41)%N.

Definition hex_digit (d : N) : N := if (d <? 10)%N then (48 + d)%N else (55 + d)%N.

Definition percent_byte (b : N) : jsstr := [37%N; hex_digit (b / 16); hex_digit (b mod 16)].

Definition utf8_bytes (cp : N) : list N :=
  if (cp <? 128)%N then [cp]
  else if (cp <? 2048)%N then [(192 + cp / 64)%N; (128 + cp mod 64)%N]
  else if (cp <? 65536)%N then
    [(224 + cp / 4096)%N; (128 + (cp / 64) mod 64)%N; (128 + cp mod 64)%N]
  else
    [(240 + cp / 262144)%N; (128 + (cp / 4096) mod 64)%N;
     (128 + (cp / 64) mod 64)%N; (128 + cp mod 64)%N].

Definition is_high_surrogate (c : N) : bool := (55296 <=? c)%N && (c <=? 56319)%N.
Definition is_low_surrogate (c : N) : bool := (56320 <=? c)%N && (c <=? 57343)%N.

Fixpoint encodeURIComponent (s : jsstr) : option jsstr :=
  match s with
  | [] => Some []
  | c :: r =>
    if uri_unreserved c then (c ::.) <$> encodeURIComponent r
    else if is_low_surrogate c then None
    else if is_high_surrogate c then
      match r with
      | d :: r' =>
        if is_low_surrogate d then
          let cp := ((c - 55296) * 1024 + (d - 56320) + 65536)%N in
          (mbind percent_byte (utf8_bytes cp) ++.) <$> encodeURIComponent r'
        else None
      | [] => None
      end
    else (mbind percent_byte (utf8_bytes c) ++.) <$> encodeURIComponent r
  end.

End JS.

Import JS.

(** ** Exceptions and effects *)

Inductive exn := TypeError | URIError.

(** The result of running a function on a state: it returns, or it throws
    and leaves the state as the assignments before the throw made it. *)
Inductive outcome (St A : Type) :=
  | Ok (a : A) (s : St)
  | Throw (e : exn) (s : St).
Arguments Ok {St A} a s.
Arguments Throw {St A} e s.

Definition Eff (St A : Type) : Type := St -> outcome St A.

Definition eff_ret {St A} (a : A) : Eff St A := fun s => Ok a s.

Definition eff_bind {St A B} (m : Eff St A) (k : A -> Eff St B) : Eff St B :=
  fun s => match m s with
           | Ok a s' => k a s'
           | Throw e s' => Throw e s'
           end.

Definition throw {St A} (e : exn) : Eff St A := fun s => Throw e s.
Definition gets {St A} (f : St -> A) : Eff St A := fun s => Ok (f s) s.
Definition modify {St} (f : St -> St) : Eff St unit := fun s => Ok tt (f s).

Declare Scope eff_scope.
Delimit Scope eff_scope with eff.
Notation "x <- m ;; k" := (eff_bind m (fun x => k))
  (at level 100, m at next level, k at level 200, right associativity) : eff_scope.
Notation "m ;; k" := (eff_bind m (fun _ => k))
  (at level 100, k at level 200, right associativity) : eff_scope.

(** The state a run ends in, whether it returned or threw. *)
Definition final_state {St A} (o : outcome St A) : St :=
  match o with Ok _ s => s | Throw _ s => s end.

Definition returns {St A} (o : outcome St A) : bool :=
  match o with Ok _ _ => true | Throw _ _ => false end.

(** An effectful function keeps a property of the state when the state it
    ends in, returning or throwing, has the property whenever the state it
    started in had. *)
Definition preserves {St A} (P : St -> Prop) (m : Eff St A) : Prop :=
  forall s, P s -> P (final_state (m s)).

(** ** The dataset *)

Record Spot := {
  s_id : jsstr;
  s_title : jsstr;
  s_region : jsstr;
  s_category : jsstr;
  s_desc : jsstr;
  s_color : jsstr
}.

Definition DUMMY_SPOTS : list Spot := [
  {| s_id := js "s1"; s_title := js "藍染工房の体験"; s_region := js "愛知県/東海市";
     s_category := js "crafts"; s_desc := js "藍の深い青を自分の手で"; s_color := js "#2f5a40" |};
  {| s_id := js "s2"; s_title := js "夏祭りの太鼓"; s_region := js "京都府/京都市";
     s_category := js "festival"; s_desc := js "響く太鼓と練り歩き"; s_color := js "#a83a2f" |};
  {| s_id := js "s3"; s_title := js "郷土料理教室"; s_region := js "青森県/弘前市";
     s_category := js "food"; s_desc := js "季節に寄り添う味"; s_color := js "#3d4f66" |};
  {| s_id := js "s4"; s_title := js "町家建築めぐり"; s_region := js "京都府/宇治市";
     s_category := js "architecture"; s_desc := js "古い町家の意匠を学ぶ"; s_color := js "#6a4a3b" |};
  {| s_id := js "s5"; s_title := js "陶芸の里の工房訪問"; s_region := js "愛知県/岡崎市";
     s_category := js "experience"; s_desc := js "土と火の美を体験"; s_color := js "#865a3f" |};
  {| s_id := js "s6"; s_title := js "伝承語りの夜"; s_region := js "青森県/青森市";
     s_category := js "folklore"; s_desc := js "語り部が継ぐ物語"; s_color := js "#385b71" |}
].

(** ** The document

    [qs] looks elements up by an id selector; the document is the finite map
    from the selectors the script uses to the state of the element found,
    absent where [querySelector] returns [null]. *)

Inductive Handler := OpenModelOverlay (modelSrc iosSrc : jsstr).

Inductive Content := Text (t : jsstr) | Html (h : jsstr).

Record Elem := {
  hidden : bool;
  content : Content;          (* set through textContent or innerHTML *)
  src : option jsstr;
  ios_src : option jsstr;     (* the ios-src attribute *)
  display : jsstr;            (* style.display *)
  onclick : option Handler
}.

Definition set_hidden (b : bool) (e : Elem) : Elem :=
  {| hidden := b; content := content e; src := src e; ios_src := ios_src e;
     display := display e; onclick := onclick e |}.
Definition set_content (c : Content) (e : Elem) : Elem :=
  {| hidden := hidden e; content := c; src := src e; ios_src := ios_src e;
     display := display e; onclick := onclick e |}.
Definition set_src (v : jsstr) (e : Elem) : Elem :=
  {| hidden := hidden e; content := content e; src := Some v; ios_src := ios_src e;
     display := display e; onclick := onclick e |}.
Definition set_ios_src (v : jsstr) (e : Elem) : Elem :=
  {| hidden := hidden e; content := content e; src := src e; ios_src := Some v;
     display := display e; onclick := onclick e |}.
Definition set_display (v : jsstr) (e : Elem) : Elem :=
  {| hidden := hidden e; content := content e; src := src e; ios_src := ios_src e;
     display := v; onclick := onclick e |}.
Definition set_onclick (h : Handler) (e : Elem) : Elem :=
  {| hidden := hidden e; content := content e; src := src e; ios_src := ios_src e;
     display := display e; onclick := Some h |}.

Record World := {
  dom : gmap string Elem;
  scrollTop : Z;              (* where window.scrollTo last sent the window *)
  location_hash : jsstr       (* location.hash *)
}.

Definition with_dom (f : gmap string Elem -> gmap string Elem) (w : World) : World :=
  {| dom := f (dom w); scrollTop := scrollTop w; location_hash := location_hash w |}.
Definition with_scrollTop (y : Z) (w : World) : World :=
  {| dom := dom w; scrollTop := y; location_hash := location_hash w |}.

(** An element reference, or [null]. *)
Definition ref := option string.

Definition qs (sel : string) : Eff World ref :=
  gets (fun w => match dom w !! sel with Some _ => Some sel | None => None end).

(** [el.prop = v]: a [TypeError] when [el] is [null]. *)
Definition assign (el : ref) (f : Elem -> Elem) : Eff World unit :=
  match el with
  | None => throw TypeError
  | Some sel => modify (with_dom (alter f sel))
  end.

Definition truthy (el : ref) : bool := bool_decide (is_Some el).

(** ** Detail view *)

Module Detail.

Definition svg_rect (fill : jsstr) : jsstr :=
  js "data:image/svg+xml;utf8,<svg xmlns='http://www.w3.org/2000/svg' width='960' height='420'><rect width='100%25' height='100%25' fill='"
  ++ fill ++ js "'/></svg>".

Definition NOT_FOUND_TITLE : jsstr := js "詳細情報がありません".
Definition NOT_FOUND_DESC : jsstr := js "選択されたスポットの詳細情報が見つかりません。".

Definition EXTRA_HTML : jsstr := js "
    <li>営業時間：9:00〜17:00</li>
    <li>体験料金：2,000円〜（内容により変動）</li>
    <li>アクセス：最寄り駅からバスで約20分</li>
    <li>備考：要予約・休業日は施設に確認</li>
  ".

Definition showDetail (spotId : jsstr) : Eff World unit :=
  (let spot := List.find (fun s => str_eqb (s_id s) spotId) DUMMY_SPOTS in
   titleEl <- qs "#detailTitle" ;;
   regionEl <- qs "#detailRegion" ;;
   descEl <- qs "#detailDesc" ;;
   imgEl <- qs "#detailImage" ;;
   extraEl <- qs "#detailExtra" ;;
   arArea <- qs "#detailArArea" ;;
   modelViewer <- qs "#detailModelViewer" ;;
   detailArBtn <- qs "#detailArBtn" ;;
   mvArBtn <- qs "#mvArBtn" ;;
   match spot with
   | None =>
     assign titleEl (set_content (Text NOT_FOUND_TITLE)) ;;
     assign regionEl (set_content (Text [])) ;;
     assign descEl (set_content (Text NOT_FOUND_DESC)) ;;
     assign imgEl (set_src (svg_rect (js "%23e0e0e0"))) ;;
     assign extraEl (set_content (Html [])) ;;
     if truthy arArea then assign arArea (set_display (js "none")) else eff_ret tt
   | Some spot =>
     assign titleEl (set_content (Text (s_title spot))) ;;
     assign regionEl (set_content (Text (js "地域：" ++ s_region spot))) ;;
     assign descEl (set_content (Text (s_desc spot ++ js "（詳細ページサンプル）"))) ;;
     fill <- match encodeURIComponent (s_color spot) with
              | Some c => eff_ret c
              | None => throw URIError
              end ;;
     assign imgEl (set_src (svg_rect fill)) ;;
     assign extraEl (set_content (Html EXTRA_HTML)) ;;
     if str_eqb (s_id spot) (js "s5") && truthy arArea && truthy modelViewer then
       assign modelViewer (set_src (js "models/craft.glb")) ;;
       assign modelViewer (set_ios_src (js "models/craft.usdz")) ;;
       assign arArea (set_display (js "block")) ;;
       if truthy detailArBtn && truthy mvArBtn then
         assign detailArBtn
           (set_onclick (OpenModelOverlay (js "models/craft.glb") (js "models/craft.usdz")))
       else eff_ret tt
     else if truthy arArea then assign arArea (set_display (js "none"))
     else eff_ret tt
   end)%eff.

End Detail.

(** ** Hash router *)

Module Router.

(** The [pages] object: its own keys in insertion order, each with the
    selector its element was looked up by.  The script never adds or removes
    these elements, so looking one up when it is used finds what the lookup
    at load time found. *)
Definition pages : list (jsstr * string) := [
  (js "top", "#page-top");
  (js "results", "#page-results");
  (js "map", "#page-map");
  (js "detail", "#page-detail")
]%string.

(** [pages] is an ordinary object: the properties it inherits from
    [Object.prototype]. *)
Definition Object_prototype_names : list jsstr := [
  js "constructor"; js "__defineGetter__"; js "__defineSetter__";
  js "hasOwnProperty"; js "__lookupGetter__"; js "__lookupSetter__";
  js "isPrototypeOf"; js "propertyIsEnumerable"; js "toString"; js "valueOf";
  js "__proto__"; js "toLocaleString"
].

(** [hash in pages]: own and inherited properties. *)
Definition in_pages (hash : jsstr) : bool :=
  bool_decide (hash ∈ pages.*1) || bool_decide (hash ∈ Object_prototype_names).

Definition showPage (name : jsstr) : Eff World unit :=
  (modify (fun w =>
     foldl (fun w '(key, sel) =>
              match dom w !! sel with
              | None => w
              | Some _ => with_dom (alter (set_hidden (negb (str_eqb key name))) sel) w
              end) w pages) ;;
   modify (with_scrollTop 0))%eff.

(** [location.hash.replace('#', '') || 'top'] *)
Definition current_hash (w : World) : jsstr :=
  or_default (Some (remove_first 35 (location_hash w))) (js "top").

Definition handleHashChange : Eff World unit :=
  (hash <- gets current_hash ;;
   if in_pages hash then showPage hash
   else if startsWith hash (js "detail:") then
     let parts := split_at 58 hash in
     let spotId := or_default (parts !! 1%nat) [] in
     Detail.showDetail spotId ;;
     showPage (js "detail")
   else showPage (js "top"))%eff.

(** The keys of [pages] whose element exists and is not hidden. *)
Definition visible_pages (w : World) : list jsstr :=
  omap (fun '(key, sel) =>
          match dom w !! sel with
          | Some e => if hidden e then None else Some key
          | None => None
          end) pages.

End Router.

(** ** Carousel *)

Module Carousel.

Record Track := {
  transition : jsstr;         (* track.style.transition *)
  translateX : Z              (* the offset of track.style.transform, in px *)
}.

(** The carousel's variables, the elements it reads and writes, the interval
    timers of the window and the listeners [initCarousel] has added.  Pointer
    positions and widths are whole pixels.  The script adds the pointer
    listeners to [carousel] when it loads, so that element exists. *)
Record State := {
  slides_length : nat;              (* slides.length *)
  offsetWidth : Z;                  (* carousel.offsetWidth *)
  track : option Track;             (* qs('.carousel__track') *)
  dots : option (list bool);        (* the is-active flags of the dots in dotsContainer *)
  prevBtn : bool;                   (* qs('.carousel__nav--prev') is an element *)
  nextBtn : bool;                   (* qs('.carousel__nav--next') is an element *)
  currentIndex : Z;
  autoplayTimer : option positive;
  pointerDown : bool;
  startX : Z;
  intervals : gset positive;        (* handles of the interval timers that are set *)
  next_handle : positive;           (* the handle the next timer gets *)
  on_prev : bool;                   (* the click listener of prevBtn is added *)
  on_next : bool;                   (* the click listener of nextBtn is added *)
  on_rest : bool                    (* the mouseenter, mouseleave and resize listeners are added *)
}.

Definition with_track (f : Track -> Track) (s : State) : State :=
  {| slides_length := slides_length s; offsetWidth := offsetWidth s;
     track := f <$> track s; dots := dots s; prevBtn := prevBtn s; nextBtn := nextBtn s;
     currentIndex := currentIndex s; autoplayTimer := autoplayTimer s;
     pointerDown := pointerDown s; startX := startX s; intervals := intervals s;
     next_handle := next_handle s; on_prev := on_prev s; on_next := on_next s;
     on_rest := on_rest s |}.
Definition with_dots (d : list bool) (s : State) : State :=
  {| slides_length := slides_length s; offsetWidth := offsetWidth s; track := track s;
     dots := Some d; prevBtn := prevBtn s; nextBtn := nextBtn s;
     currentIndex := currentIndex s; autoplayTimer := autoplayTimer s;
     pointerDown := pointerDown s; startX := startX s; intervals := intervals s;
     next_handle := next_handle s; on_prev := on_prev s; on_next := on_next s;
     on_rest := on_rest s |}.
Definition with_offsetWidth (w : Z) (s : State) : State :=
  {| slides_length := slides_length s; offsetWidth := w; track := track s;
     dots := dots s; prevBtn := prevBtn s; nextBtn := nextBtn s;
     currentIndex := currentIndex s; autoplayTimer := autoplayTimer s;
     pointerDown := pointerDown s; startX := startX s; intervals := intervals s;
     next_handle := next_handle s; on_prev := on_prev s; on_next := on_next s;
     on_rest := on_rest s |}.
Definition with_currentIndex (i : Z) (s : State) : State :=
  {| slides_length := slides_length s; offsetWidth := offsetWidth s; track := track s;
     dots := dots s; prevBtn := prevBtn s; nextBtn := nextBtn s; currentIndex := i;
     autoplayTimer := autoplayTimer s; pointerDown := pointerDown s; startX := startX s;
     intervals := intervals s; next_handle := next_handle s; on_prev := on_prev s;
     on_next := on_next s; on_rest := on_rest s |}.
Definition with_autoplayTimer (t : option positive) (s : State) : State :=
  {| slides_length := slides_length s; offsetWidth := offsetWidth s; track := track s;
     dots := dots s; prevBtn := prevBtn s; nextBtn := nextBtn s;
     currentIndex := currentIndex s; autoplayTimer := t; pointerDown := pointerDown s;
     startX := startX s; intervals := intervals s; next_handle := next_handle s;
     on_prev := on_prev s; on_next := on_next s; on_rest := on_rest s |}.
Definition with_pointer (down : bool) (x : Z) (s : State) : State :=
  {| slides_length := slides_length s; offsetWidth := offsetWidth s; track := track s;
     dots := dots s; prevBtn := prevBtn s; nextBtn := nextBtn s;
     currentIndex := currentIndex s; autoplayTimer := autoplayTimer s;
     pointerDown := down; startX := x; intervals := intervals s;
     next_handle := next_handle s; on_prev := on_prev s; on_next := on_next s;
     on_rest := on_rest s |}.
Definition with_timers (i : gset positive) (n : positive) (s : State) : State :=
  {| slides_length := slides_length s; offsetWidth := offsetWidth s; track := track s;
     dots := dots s; prevBtn := prevBtn s; nextBtn := nextBtn s;
     currentIndex := currentIndex s; autoplayTimer := autoplayTimer s;
     pointerDown := pointerDown s; startX := startX s; intervals := i; next_handle := n;
     on_prev := on_prev s; on_next := on_next s; on_rest := on_rest s |}.
Definition with_listeners (p n r : bool) (s : State) : State :=
  {| slides_length := slides_length s; offsetWidth := offsetWidth s; track := track s;
     dots := dots s; prevBtn := prevBtn s; nextBtn := nextBtn s;
     currentIndex := currentIndex s; autoplayTimer := autoplayTimer s;
     pointerDown := pointerDown s; startX := startX s; intervals := intervals s;
     next_handle := next_handle s; on_prev := p; on_next := n; on_rest := r |}.

(** [setInterval]: a fresh positive handle. *)
Definition setInterval : Eff State positive :=
  fun s => Ok (next_handle s)
              (with_timers ({[next_handle s]} ∪ intervals s) (Pos.succ (next_handle s)) s).

Definition clearInterval (h : positive) : Eff State unit :=
  modify (fun s => with_timers (intervals s ∖ {[h]}) (next_handle s) s).

(** [track.style.p = v] *)
Definition assign_track (f : Track -> Track) : Eff State unit :=
  fun s => match track s with
           | None => Throw TypeError s
           | Some _ => Ok tt (with_track f s)
           end.

Definition set_translateX (x : Z) (t : Track) : Track :=
  {| transition := transition t; translateX := x |}.
Definition set_transition (v : jsstr) (t : Track) : Track :=
  {| transition := v; translateX := translateX t |}.

(** [qsa('.carousel__dot', dotsContainer)] throws on a [null] container. *)
Definition each_dot (f : nat -> bool -> bool) : Eff State unit :=
  fun s => match dots s with
           | None => Throw TypeError s
           | Some d => Ok tt (with_dots (imap f d) s)
           end.

Definition createDots : Eff State unit :=
  fun s => match dots s with
           | None => Throw TypeError s
           | Some _ =>
             Ok tt (with_dots (imap (fun i _ => bool_decide (i = 0%nat))
                                    (replicate (slides_length s) false)) s)
           end.

Definition goToSlide (index : Z) : Eff State unit :=
  (n <- gets (fun s => Z.of_nat (slides_length s)) ;;
   let index := if index <? 0 then n - 1 else index in
   let index := if index >=? n then 0 else index in
   modify (with_currentIndex index) ;;
   w <- gets offsetWidth ;;
   let offset := - index * w in
   assign_track (set_translateX offset) ;;
   each_dot (fun i _ => bool_decide (Z.of_nat i = index)))%eff.

Definition prevSlide : Eff State unit :=
  (i <- gets currentIndex ;; goToSlide (i - 1))%eff.
Definition nextSlide : Eff State unit :=
  (i <- gets currentIndex ;; goToSlide (i + 1))%eff.

Definition stopAutoplay : Eff State unit :=
  (t <- gets autoplayTimer ;;
   match t with
   | Some h => clearInterval h ;; modify (with_autoplayTimer None)
   | None => eff_ret tt
   end)%eff.

Definition startAutoplay : Eff State unit :=
  (stopAutoplay ;;
   h <- setInterval ;;
   modify (with_autoplayTimer (Some h)))%eff.

(** Whole pixels as doubles, for the swipe threshold [offsetWidth * 0.18]. *)
Definition float_of_Z (z : Z) : float :=
  if z <? 0 then (- PrimFloat.of_uint63 (Uint63.of_Z (- z)))%float
  else PrimFloat.of_uint63 (Uint63.of_Z z).

(** The double the literal [0.18] denotes. *)
Definition EIGHTEEN_PERCENT : float := 0x1.70a3d70a3d70ap-3%float.

Definition endSwipe (clientX : Z) : Eff State unit :=
  (down <- gets pointerDown ;;
   if negb down then eff_ret tt
   else
     x0 <- gets startX ;;
     modify (with_pointer false x0) ;;
     assign_track (set_transition []) ;;
     w <- gets offsetWidth ;;
     let moved := float_of_Z (clientX - x0) in
     let threshold := (float_of_Z w * EIGHTEEN_PERCENT)%float in
     (if PrimFloat.ltb threshold moved then prevSlide
      else if PrimFloat.ltb moved (- threshold)%float then nextSlide
      else i <- gets currentIndex ;; goToSlide i) ;;
     startAutoplay)%eff.

(** [b.addEventListener(...)]: a [TypeError] when the button is [null]. *)
Definition listen (present : State -> bool) (added : State -> State) : Eff State unit :=
  (b <- gets present ;; if b then modify added else throw TypeError)%eff.

Definition initCarousel : Eff State unit :=
  (createDots ;;
   goToSlide 0 ;;
   startAutoplay ;;
   listen prevBtn (fun s => with_listeners true (on_next s) (on_rest s) s) ;;
   listen nextBtn (fun s => with_listeners (on_prev s) true (on_rest s) s) ;;
   modify (fun s => with_listeners (on_prev s) (on_next s) true s))%eff.

(** What the browser delivers to the carousel. *)
Inductive Event :=
  | PointerDownEv (clientX : Z)
  | PointerMoveEv (clientX : Z)
  | PointerEndEv (clientX : Z)    (* pointerup, pointercancel, pointerleave *)
  | ClickPrev
  | ClickNext
  | ClickDot (i : nat)
  | MouseEnter
  | MouseLeave
  | Resize (width : Z)           (* the window is resized, the carousel now width wide *)
  | Tick (h : positive).          (* the interval timer with handle h fires *)

(** The pointer listeners are added when the script loads, those of the
    buttons, the mouse and the window at the end of [initCarousel]; a dot has
    its listener once [createDots] made it. *)
Definition handle (e : Event) : Eff State unit :=
  (match e with
   | PointerDownEv x =>
     modify (fun s => with_pointer true x s) ;; stopAutoplay
   | PointerMoveEv x =>
     down <- gets pointerDown ;;
     if negb down then eff_ret tt
     else
       x0 <- gets startX ;;
       i <- gets currentIndex ;;
       w <- gets offsetWidth ;;
       assign_track (set_transition (js "none")) ;;
       assign_track (set_translateX (- i * w + (x - x0)))
   | PointerEndEv x => endSwipe x
   | ClickPrev =>
     l <- gets on_prev ;; if l then prevSlide ;; startAutoplay else eff_ret tt
   | ClickNext =>
     l <- gets on_next ;; if l then nextSlide ;; startAutoplay else eff_ret tt
   | ClickDot i =>
     d <- gets dots ;;
     if bool_decide (i < length (default [] d))%nat then goToSlide (Z.of_nat i)
     else eff_ret tt
   | MouseEnter => l <- gets on_rest ;; if l then stopAutoplay else eff_ret tt
   | MouseLeave => l <- gets on_rest ;; if l then startAutoplay else eff_ret tt
   | Resize width =>
     modify (with_offsetWidth width) ;;
     l <- gets on_rest ;;
     if l then i <- gets currentIndex ;; goToSlide i else eff_ret tt
   | Tick h =>
     live <- gets intervals ;;
     if bool_decide (h ∈ live) then nextSlide else eff_ret tt
   end)%eff.

(** The page after load ([initCarousel]) and then a run of events; a handler
    that throws leaves the state as it was at the throw. *)
Definition run (es : list Event) (s : State) : State :=
  foldl (fun s e => final_state (handle e s)) (final_state (initCarousel s)) es.

(** The state the script starts from: its variables as declared, no timer. *)
Definition loaded (n : nat) (w : Z) (tr : option Track) (d : option (list bool))
    (prev next : bool) : State :=
  {| slides_length := n; offsetWidth := w; track := tr; dots := d;
     prevBtn := prev; nextBtn := next;
     currentIndex := 0; autoplayTimer := None; pointerDown := false; startX := 0;
     intervals := ∅; next_handle := 1%positive;
     on_prev := false; on_next := false; on_rest := false |}.

(** The timers that are set are exactly the one [autoplayTimer] holds, and
    its handle is one [setInterval] has already given out. *)
Definition timers_ok (s : State) : Prop :=
  intervals s = from_option singleton ∅ (autoplayTimer s)
  /\ forall h, autoplayTimer s = Some h -> (h < next_handle s)%positive.

End Carousel.

(** ** Result cards *)

Record Card := {
  card_alt : jsstr;
  card_src : jsstr;
  card_title : jsstr;
  card_tag : jsstr;
  card_desc : jsstr;
  card_target : jsstr         (* the hash its button navigates to *)
}.

(** A child of a result grid. *)
Inductive Child := Paragraph (text : jsstr) | Article (c : Card).

Definition card_svg (fill : jsstr) : jsstr :=
  js "data:image/svg+xml;utf8,<svg xmlns='http://www.w3.org/2000/svg' width='360' height='200'><rect width='100%25' height='100%25' fill='"
  ++ fill ++ js "'/></svg>".

(** The card built for a spot; [encodeURIComponent] may throw [URIError]. *)
Definition make_card (s : Spot) : option Card :=
  fill ← encodeURIComponent (s_color s);
  Some {| card_alt := s_title s; card_src := card_svg fill; card_title := s_title s;
          card_tag := js "地域：" ++ s_region s; card_desc := s_desc s;
          card_target := js "detail:" ++ s_id s |}.

(** [list.forEach(f)] *)
Fixpoint forEach {St A} (f : A -> Eff St unit) (l : list A) : Eff St unit :=
  match l with
  | [] => eff_ret tt
  | a :: l' => eff_bind (f a) (fun _ => forEach f l')
  end.

(** A string is truthy when it is not empty. *)
Definition nonempty (s : jsstr) : bool :=
  match s with [] => false | _ :: _ => true end.

(** The cards of a list of spots, as the loop appends them. *)
Definition cards (l : list Spot) : list Child := Article <$> omap make_card l.

(** ** Result page *)

Module Results.

(** The controls [runResultsSearch] reads and the elements it writes. *)
Record Page := {
  resultsKeyword : jsstr;                 (* resultsKeywordInput.value *)
  prefSelect : jsstr;                     (* prefSelect.value *)
  citySelect_disabled : bool;
  citySelect : jsstr;                     (* citySelect.value *)
  categoryBoxes : list (jsstr * bool);    (* value and checked, in document order *)
  resultsTitle : jsstr;
  resultsDesc : jsstr;
  resultsGrid : list Child
}.

Definition with_title_desc (t d : jsstr) (p : Page) : Page :=
  {| resultsKeyword := resultsKeyword p; prefSelect := prefSelect p;
     citySelect_disabled := citySelect_disabled p; citySelect := citySelect p;
     categoryBoxes := categoryBoxes p;
     resultsTitle := t; resultsDesc := d; resultsGrid := resultsGrid p |}.
Definition with_grid (g : list Child) (p : Page) : Page :=
  {| resultsKeyword := resultsKeyword p; prefSelect := prefSelect p;
     citySelect_disabled := citySelect_disabled p; citySelect := citySelect p;
     categoryBoxes := categoryBoxes p;
     resultsTitle := resultsTitle p; resultsDesc := resultsDesc p; resultsGrid := g |}.

Definition with_keyword (kw : jsstr) (p : Page) : Page :=
  {| resultsKeyword := kw; prefSelect := prefSelect p;
     citySelect_disabled := citySelect_disabled p; citySelect := citySelect p;
     categoryBoxes := categoryBoxes p;
     resultsTitle := resultsTitle p; resultsDesc := resultsDesc p;
     resultsGrid := resultsGrid p |}.
Definition appendChild (c : Child) : Eff Page unit :=
  modify (fun p => with_grid (resultsGrid p ++ [c]) p).

Definition SHOW_ALL : jsstr := js "条件に合致したスポットを表示します".
Definition NO_RESULTS : jsstr :=
  js "該当するスポットが見つかりませんでした。条件を調整してください。".

(** What the grid shows for the local [list]. *)
Definition grid_of (l : list Spot) : list Child :=
  if bool_decide (l = []) then [Paragraph NO_RESULTS] else cards l.

Section Search.

(** [String.prototype.toLowerCase]: the Unicode default lower-case mapping,
    a fixed function of the string that is not spelled out here. *)
Variable toLowerCase : jsstr -> jsstr.

(** The values read from the form. *)
Definition keyword (p : Page) : jsstr := trim (or_default (Some (resultsKeyword p)) []).
Definition pref (p : Page) : jsstr := or_default (Some (prefSelect p)) [].
Definition city (p : Page) : jsstr :=
  if negb (citySelect_disabled p) && nonempty (citySelect p) then citySelect p else [].
Definition selectedCats (p : Page) : list jsstr :=
  fst <$> List.filter snd (categoryBoxes p).

(** The text of the active criteria. *)
Definition summary (kw pref city : jsstr) (selectedCats : list jsstr) : jsstr :=
  let parts :=
    (if nonempty kw then [js "キーワード：「" ++ kw ++ js "」"] else [])
    ++ (if nonempty pref then [js "都道府県：「" ++ pref ++ js "」"] else [])
    ++ (if nonempty city then [js "市町村：「" ++ city ++ js "」"] else [])
    ++ (if bool_decide (selectedCats ≠ [])
        then [js "カテゴリ：" ++ join (js " / ") selectedCats] else []) in
  if bool_decide (parts ≠ []) then join (js "、") parts else SHOW_ALL.

(** The local [list] when the filters have run. *)
Definition filtered (kw pref city : jsstr) (selectedCats : list jsstr) : list Spot :=
  let list := DUMMY_SPOTS in
  let list :=
    if nonempty kw then
      let k := toLowerCase kw in
      List.filter (fun s => includes (toLowerCase (s_title s)) k
                         || includes (toLowerCase (s_desc s)) k
                         || includes (toLowerCase (s_region s)) k) list
    else list in
  let list :=
    if nonempty pref then List.filter (fun s => startsWith (s_region s) pref) list
    else list in
  let list :=
    if nonempty city then List.filter (fun s => includes (s_region s) (js "/" ++ city)) list
    else list in
  if bool_decide (selectedCats ≠ [])
  then List.filter (fun s => bool_decide (s_category s ∈ selectedCats)) list
  else list.

Definition runResultsSearch : Eff Page unit :=
  (kw <- gets keyword ;;
   pref <- gets pref ;;
   city <- gets city ;;
   selectedCats <- gets selectedCats ;;
   modify (with_title_desc (js "検索結果") (summary kw pref city selectedCats)) ;;
   let list := filtered kw pref city selectedCats in
   modify (with_grid []) ;;
   if bool_decide (list = []) then appendChild (Paragraph NO_RESULTS)
   else
     forEach (fun s =>
                match make_card s with
                | Some c => appendChild (Article c)
                | None => throw URIError
                end) list)%eff.

End Search.

End Results.

(** ** Pseudo map *)

Module Map.

Record Coord := { p_x : float; p_y : float }.

(** [circleState] *)
Record Circle := { c_x : float; c_y : float; c_r : float }.

Definition SPOT_COORDS : list (jsstr * Coord) := [
  (js "s1", {| p_x := 260; p_y := 200 |});
  (js "s2", {| p_x := 520; p_y := 240 |});
  (js "s3", {| p_x := 200; p_y := 140 |});
  (js "s4", {| p_x := 500; p_y := 260 |});
  (js "s5", {| p_x := 320; p_y := 220 |});
  (js "s6", {| p_x := 180; p_y := 120 |})
]%float.

(** [SPOT_COORDS[id]] for the own properties.  A name inherited from
    [Object.prototype] would give a value without [x] and [y], for which the
    distance is [NaN] and the test below false, as it is for [undefined]. *)
Definition coord_of (id : jsstr) : option Coord :=
  snd <$> List.find (fun kv => str_eqb (fst kv) id) SPOT_COORDS.

(** The callback of the filter in [renderCircleResults]. *)
Definition in_circle (circleState : Circle) (s : Spot) : bool :=
  match coord_of (s_id s) with
  | None => false
  | Some c =>
    let dx := (p_x c - c_x circleState)%float in
    let dy := (p_y c - c_y circleState)%float in
    PrimFloat.leb (PrimFloat.sqrt (dx * dx + dy * dy)) (c_r circleState)
  end.

(** The local [inside]. *)
Definition inside (circleState : Circle) : list Spot :=
  List.filter (in_circle circleState) DUMMY_SPOTS.

Record State := {
  circleState : Circle;
  mapResultsGrid : list Child
}.

Definition with_grid (g : list Child) (m : State) : State :=
  {| circleState := circleState m; mapResultsGrid := g |}.

Definition appendChild (c : Child) : Eff State unit :=
  modify (fun m => with_grid (mapResultsGrid m ++ [c]) m).

Definition NOTHING_IN_RANGE : jsstr :=
  js "指定範囲内にスポットがありません。円の位置または半径を調整してください。".

Definition renderCircleResults : Eff State unit :=
  (modify (with_grid []) ;;
   c <- gets circleState ;;
   let inside := inside c in
   if bool_decide (inside = []) then appendChild (Paragraph NOTHING_IN_RANGE)
   else
     forEach (fun s =>
                match make_card s with
                | Some c => appendChild (Article c)
                | None => throw URIError
                end) inside)%eff.

(** The circle the script starts with. *)
Definition initial_circle : Circle := {| c_x := 300; c_y := 200; c_r := 80 |}%float.

End Map.

(** ** Shortcuts into the result page

    The header search, the category buttons and the keyword buttons set
    [location.hash] to [#results] and defer a callback with [setTimeout];
    these are the callbacks, on the result page they write. *)

Module Shortcuts.

Import Results.

Definition with_boxes (b : list (jsstr * bool)) (p : Page) : Page :=
  {| resultsKeyword := resultsKeyword p; prefSelect := prefSelect p;
     citySelect_disabled := citySelect_disabled p; citySelect := citySelect p;
     categoryBoxes := b;
     resultsTitle := resultsTitle p; resultsDesc := resultsDesc p;
     resultsGrid := resultsGrid p |}.

Section Callbacks.

Variable toLowerCase : jsstr -> jsstr.

(** The submit listener of the header form, [input] being
    [globalSearchInput.value] (the value of a text field: it holds no line
    break, which the keyword field would strip). *)
Definition globalSearch (input : jsstr) : Eff Page unit :=
  (let keyword := trim (or_default (Some input) []) in
   modify (with_keyword keyword) ;;
   runResultsSearch toLowerCase)%eff.

(** The click listener of a category button; [category] is its
    [data-category], [undefined] ([None]) when the attribute is missing. *)
Definition categoryClick (category : option jsstr) : Eff Page unit :=
  (modify (fun p =>
     with_boxes ((fun b => (fst b, bool_decide (Some (fst b) = category)))
                   <$> categoryBoxes p) p) ;;
   runResultsSearch toLowerCase)%eff.

(** The click listener of a keyword button with [data-keyword] [kw]. *)
Definition keywordClick (kw : jsstr) : Eff Page unit :=
  (modify (with_keyword kw) ;;
   runResultsSearch toLowerCase)%eff.

End Callbacks.

End Shortcuts.

(** ** Prefecture and city lists *)

Module Region.

Definition CITY_DATA : list (jsstr * list jsstr) := [
  (js "愛知県", [js "名古屋市"; js "岡崎市"; js "豊橋市"; js "東海市"]);
  (js "京都府", [js "京都市"; js "宇治市"; js "亀岡市"]);
  (js "青森県", [js "青森市"; js "弘前市"; js "八戸市"])
].

(** What [CITY_DATA[pref]] can be: a city array, a function inherited from
    [Object.prototype] (of which only [length] matters), the prototype
    object itself ([__proto__]), or [undefined]. *)
Inductive Property :=
  | CityArray (cities : list jsstr)
  | InheritedFunction (length : nat)
  | PrototypeObject
  | Undefined.

(** The [length] of the functions of [Object.prototype]. *)
Definition inherited_functions : list (jsstr * nat) := [
  (js "constructor", 1); (js "__defineGetter__", 2); (js "__defineSetter__", 2);
  (js "hasOwnProperty", 1); (js "__lookupGetter__", 1); (js "__lookupSetter__", 1);
  (js "isPrototypeOf", 1); (js "propertyIsEnumerable", 1); (js "toString", 0);
  (js "valueOf", 0); (js "toLocaleString", 0)
]%nat.

Definition get_property (pref : jsstr) : Property :=
  match List.find (fun kv => str_eqb (fst kv) pref) CITY_DATA with
  | Some kv => CityArray (snd kv)
  | None =>
    match List.find (fun kv => str_eqb (fst kv) pref) inherited_functions with
    | Some kv => InheritedFunction (snd kv)
    | None => if str_eqb pref (js "__proto__") then PrototypeObject else Undefined
    end
  end.

(** An [option] element: its value and its text. *)
Record Option_ := { opt_value : jsstr; opt_text : jsstr }.

(** The two selects of the region form. *)
Record State := {
  prefValue : jsstr;                  (* prefSelect.value *)
  cityOptions : list Option_;         (* the options of citySelect *)
  cityDisabled : bool                 (* citySelect.disabled *)
}.

Definition with_options (o : list Option_) (s : State) : State :=
  {| prefValue := prefValue s; cityOptions := o; cityDisabled := cityDisabled s |}.
Definition with_disabled (d : bool) (s : State) : State :=
  {| prefValue := prefValue s; cityOptions := cityOptions s; cityDisabled := d |}.

Definition appendOption (o : Option_) : Eff State unit :=
  modify (fun s => with_options (cityOptions s ++ [o]) s).

Definition PLACEHOLDER : jsstr := js "都道府県を選択してください".

Definition fallback : Eff State unit :=
  (appendOption {| opt_value := []; opt_text := PLACEHOLDER |} ;;
   modify (with_disabled true))%eff.

(** The change listener of [prefSelect]. *)
Definition prefChange : Eff State unit :=
  (pref <- gets prefValue ;;
   let cities := get_property pref in            (* CITY_DATA[pref] || [] *)
   modify (with_options []) ;;
   match cities with
   | CityArray l =>
     if bool_decide (l <> []) then
       forEach (fun c => appendOption {| opt_value := c; opt_text := c |}) l ;;
       modify (with_disabled false)
     else fallback
   | InheritedFunction n =>
     (* a function is truthy; with a positive length, cities.forEach is called *)
     if bool_decide (n <> 0%nat) then throw TypeError else fallback
   | PrototypeObject => fallback                  (* its length is undefined *)
   | Undefined => fallback
   end)%eff.

End Region.

(** ** Map pins and the circle element *)

Module MapView.

Import Map.

(** A pin: its style.left and style.top in px, and its title.  The
    viewport element the pins hang in exists. *)
Record Pin := { pin_left : float; pin_top : float; pin_title : jsstr }.

(** The circle element's box, in px. *)
Record CircleBox := { box_left : float; box_top : float; box_width : float; box_height : float }.

Record State := {
  circleState : Circle;
  pins : list Pin;                    (* the .map__pin children of mapViewport *)
  mapCircle : CircleBox
}.

Definition with_pins (l : list Pin) (m : State) : State :=
  {| circleState := circleState m; pins := l; mapCircle := mapCircle m |}.
Definition with_box (b : CircleBox) (m : State) : State :=
  {| circleState := circleState m; pins := pins m; mapCircle := b |}.

Definition renderPins : Eff State unit :=
  (modify (with_pins []) ;;
   forEach (fun s =>
              match coord_of (s_id s) with
              | None => eff_ret tt
              | Some coord =>
                modify (fun m =>
                  with_pins (pins m ++ [{| pin_left := p_x coord; pin_top := p_y coord;
                                           pin_title := s_title s |}]) m)
              end) DUMMY_SPOTS)%eff.

Definition renderCircle : Eff State unit :=
  modify (fun m =>
    let c := circleState m in
    with_box {| box_left := (c_x c - c_r c)%float; box_top := (c_y c - c_r c)%float;
                box_width := (c_r c * 2)%float; box_height := (c_r c * 2)%float |} m).

End MapView.

(** ** Model overlay *)

Module Overlay.

Record OverlayEl := {
  ov_hidden : bool;
  ov_aria_hidden : option jsstr       (* the aria-hidden attribute *)
}.

Record ViewerEl := {
  v_src : option jsstr;
  v_ios_src : option jsstr            (* the ios-src attribute *)
}.

Record State := {
  modelOverlay : option OverlayEl;
  overlayModelViewer : option ViewerEl;
  modelOverlayClose : bool;           (* the close button is an element *)
  close_focus_calls : nat             (* calls of focus() on the close button *)
}.

Definition openModelOverlay (modelSrc iosSrc : option jsstr) : Eff State unit :=
  fun s =>
    let modelSrc := default (js "models/craft.glb") modelSrc in
    let iosSrc := default (js "models/craft.usdz") iosSrc in
    match modelOverlay s with
    | None => Ok tt s
    | Some _ =>
      Ok tt {| modelOverlay :=
                 Some {| ov_hidden := false; ov_aria_hidden := Some (js "false") |};
               overlayModelViewer :=
                 (fun _ => {| v_src := Some modelSrc; v_ios_src := Some iosSrc |})
                   <$> overlayModelViewer s;
               modelOverlayClose := modelOverlayClose s;
               close_focus_calls :=
                 if modelOverlayClose s then S (close_focus_calls s)
                 else close_focus_calls s |}
    end.


(** What a recorded click handler does. *)
Definition run_handler (h : Handler) : Eff State unit :=
  match h with
  | OpenModelOverlay modelSrc iosSrc => openModelOverlay (Some modelSrc) (Some iosSrc)
  end.

End Overlay.

(** ** Frames *)

(** The selectors [showDetail] looks up. *)
Definition detail_selectors : list string := [
  "#detailTitle"; "#detailRegion"; "#detailDesc"; "#detailImage"; "#detailExtra";
  "#detailArArea"; "#detailModelViewer"; "#detailArBtn"; "#mvArBtn"
]%string.

(** The five of them [showDetail] writes without a test for [null]. *)
Definition detail_required : list string := [
  "#detailTitle"; "#detailRegion"; "#detailDesc"; "#detailImage"; "#detailExtra"
]%string.

(** [w] differs from [w0] at most in the elements found by [sels]. *)
Definition untouched_outside (sels : list string) (w0 w : World) : Prop :=
  scrollTop w = scrollTop w0
  /\ location_hash w = location_hash w0
  /\ forall sel, sel ∉ sels -> dom w !! sel = dom w0 !! sel.

(** The carousel has [n] slides and shows one of them. *)
Definition index_ok (n : nat) (s : Carousel.State) : Prop :=
  Carousel.slides_length s = n
  /\ 0 <= Carousel.currentIndex s < Z.of_nat n.

(** The matching rule in one piece: a spot matches when it passes every
    criterion that is given (conjunction), an empty criterion passing all. *)
Definition matches (toLowerCase : jsstr -> jsstr) (kw pref city : jsstr)
    (cats : list jsstr) (s : Spot) : bool :=
  (negb (nonempty kw)
   || includes (toLowerCase (s_title s)) (toLowerCase kw)
   || includes (toLowerCase (s_desc s)) (toLowerCase kw)
   || includes (toLowerCase (s_region s)) (toLowerCase kw))
  && (negb (nonempty pref) || startsWith (s_region s) pref)
  && (negb (nonempty city) || includes (s_region s) (js "/" ++ city))
  && (bool_decide (cats = []) || bool_decide (s_category s ∈ cats)).

(** A string with no white space at its start. *)
Definition starts_clean (s : jsstr) : Prop :=
  match s with
  | [] => True
  | c :: _ => is_white c = false
  end.

(** ** Sample states *)

Definition blank : Elem :=
  {| hidden := false; content := Text []; src := None; ios_src := None;
     display := []; onclick := None |}.

(** A document with the four pages and the elements of the detail page,
    opened at a given [location.hash]. *)
Definition sample_world (hash : string) : World :=
  {| dom := list_to_map ((fun sel => (sel, blank)) <$>
       ["#page-top"; "#page-results"; "#page-map"; "#page-detail";
        "#detailTitle"; "#detailRegion"; "#detailDesc"; "#detailImage";
        "#detailExtra"; "#detailArArea"; "#detailModelViewer";
        "#detailArBtn"; "#mvArBtn"]%string);
     scrollTop := 120;
     location_hash := js hash |}.

Definition sample_track : Carousel.Track :=
  {| Carousel.transition := []; Carousel.translateX := 0 |}.

Definition five_slides : Carousel.State :=
  Carousel.loaded 5 300 (Some sample_track) (Some (replicate 5 false)) true true.

Definition empty_form : Results.Page :=
  {| Results.resultsKeyword := []; Results.prefSelect := [];
     Results.citySelect_disabled := true; Results.citySelect := [];
     Results.categoryBoxes :=
       [(js "crafts", false); (js "festival", false); (js "food", false);
        (js "architecture", false); (js "experience", false); (js "folklore", false)];
     Results.resultsTitle := []; Results.resultsDesc := []; Results.resultsGrid := [] |}.

Definition blank_keyword_form : Results.Page :=
  {| Results.resultsKeyword := js "  　 "; Results.prefSelect := js "京都府";
     Results.citySelect_disabled := false; Results.citySelect := js "宇治市";
     Results.categoryBoxes := [(js "crafts", false); (js "architecture", true)];
     Results.resultsTitle := []; Results.resultsDesc := []; Results.resultsGrid := [] |}.

(** The spot at a position of the dataset. *)
Definition spot_at (i : nat) : Spot :=
  nth i DUMMY_SPOTS
    {| s_id := []; s_title := []; s_region := []; s_category := []; s_desc := [];
       s_color := [] |}.

(** The sample document without the image of the detail page, the results
    page showing. *)
Definition broken_detail_world (hash : string) : World :=
  {| dom := delete "#detailImage"%string
              (alter (set_hidden true) "#page-top"%string
                 (alter (set_hidden true) "#page-map"%string
                    (alter (set_hidden true) "#page-detail"%string
                       (dom (sample_world hash)))));
     scrollTop := 0;
     location_hash := js hash |}.

Definition spaced_keyword_form : Results.Page :=
  {| Results.resultsKeyword := js "夏 祭り"; Results.prefSelect := [];
     Results.citySelect_disabled := true; Results.citySelect := [];
     Results.categoryBoxes := [(js "festival", true)];
     Results.resultsTitle := []; Results.resultsDesc := []; Results.resultsGrid := [] |}.

(** * Properties *)

Example js_ascii : js "top" = [116; 111; 112]%N.
Proof. reflexivity. Qed.

Example js_kanji : js "陶芸" = [38518; 33464]%N.
Proof. vm_compute. reflexivity. Qed.

Example split_detail :
  split_at 58 (js "detail:s5:x") = [js "detail"; js "s5"; js "x"].
Proof. vm_compute. reflexivity. Qed.

Example trim_wide : trim (js " 　陶芸 　") = js "陶芸".
Proof. vm_compute. reflexivity. Qed.

Example encode_color : encodeURIComponent (js "#2f5a40") = Some (js "%232f5a40").
Proof. vm_compute. reflexivity. Qed.

Example encode_kanji : encodeURIComponent (js "陶 芸") = Some (js "%E9%99%B6%20%E8%8A%B8").
Proof. vm_compute. reflexivity. Qed.

(** ** Carousel: the index [goToSlide] commits *)

Section CarouselIndex.

Import Carousel.

(** The assignment to [currentIndex] comes before anything that can throw,
    so the index committed does not depend on how the call ends. *)
Lemma goToSlide_currentIndex (index : Z) (s : State) :
  currentIndex (final_state (goToSlide index s)) =
    let n := Z.of_nat (slides_length s) in
    let i := if index <? 0 then n - 1 else index in
    if i >=? n then 0 else i.
Proof.
  unfold goToSlide, eff_bind, gets, modify, assign_track, each_dot; simpl.
  destruct (track s); simpl; [destruct (dots s); simpl|]; reflexivity.
Qed.

Lemma goToSlide_slides_length (index : Z) (s : State) :
  slides_length (final_state (goToSlide index s)) = slides_length s.
Proof.
  unfold goToSlide, eff_bind, gets, modify, assign_track, each_dot; simpl.
  destruct (track s); simpl; [destruct (dots s); simpl|]; reflexivity.
Qed.

End CarouselIndex.




(** C4: with a positive slide count, the index [goToSlide(index)] commits
    is in [0, slideCount), for every integer [index]. *)
Theorem goToSlide_in_range (index : Z) (s : Carousel.State) :
  (0 < Carousel.slides_length s)%nat ->
  0 <= Carousel.currentIndex (final_state (Carousel.goToSlide index s))
    < Z.of_nat (Carousel.slides_length s).
Proof.
  intros Hn. rewrite goToSlide_currentIndex. cbv zeta.
  destruct (Z.ltb_spec index 0).
  - destruct (Z.geb_spec (Z.of_nat (Carousel.slides_length s) - 1)
                         (Z.of_nat (Carousel.slides_length s))); lia.
  - destruct (Z.geb_spec index (Z.of_nat (Carousel.slides_length s))); lia.
Qed.

Lemma goToSlide_in_range_witness :
  (0 < Carousel.slides_length five_slides)%nat
  /\ 0 <= Carousel.currentIndex (final_state (Carousel.goToSlide (-7) five_slides)) < 5.
Proof.
  split; [vm_compute; lia|].
  apply (goToSlide_in_range (-7) five_slides). vm_compute; lia.
Defined.

(** ** Router *)

Section RouterFacts.

Import Router.

(** What [showPage] leaves in the document: an element of [pages] is hidden
    unless its key is the name shown; everything else is untouched. *)
Lemma showPage_returns (name : jsstr) (w : World) :
  exists w', showPage name w = Ok tt w'.
Proof. unfold showPage, eff_bind, modify. eauto. Qed.

Lemma showPage_visible (name : jsstr) (w : World) :
  visible_pages (final_state (showPage name w)) =
    omap (fun '(key, sel) =>
            match dom w !! sel with
            | Some _ => if str_eqb key name then Some key else None
            | None => None
            end) pages.
Proof.
  unfold showPage, visible_pages, eff_bind, modify, pages. simpl.
  destruct (dom w !! "#page-top"%string) as [e1|] eqn:H1; simpl;
  rewrite ?lookup_alter_ne by done;
  destruct (dom w !! "#page-results"%string) as [e2|] eqn:H2; simpl;
  rewrite ?lookup_alter_ne by done;
  destruct (dom w !! "#page-map"%string) as [e3|] eqn:H3; simpl;
  rewrite ?lookup_alter_ne by done;
  destruct (dom w !! "#page-detail"%string) as [e4|] eqn:H4; simpl;
  rewrite ?lookup_alter_eq, ?lookup_alter_ne by done;
  rewrite ?lookup_alter_eq, ?lookup_alter_ne by done;
  rewrite ?lookup_alter_eq, ?lookup_alter_ne by done;
  rewrite ?lookup_alter_eq, ?lookup_alter_ne by done;
  rewrite ?H1, ?H2, ?H3, ?H4; simpl.
  all: try (destruct (str_eqb (js "top") name));
       try (destruct (str_eqb (js "results") name));
       try (destruct (str_eqb (js "map") name));
       try (destruct (str_eqb (js "detail") name)); reflexivity.
Qed.

End RouterFacts.

(** C1, as stated, fails: the token [detail] is none of [top], [results],
    [map] and has no [detail:<id>] shape, yet it is a key of [pages], and
    the router shows the detail page, not the top page. *)
Lemma bare_detail_token_shows_detail :
  let w := sample_world "#detail" in
  Router.current_hash w = js "detail"
  /\ (Router.current_hash w ∉ [js "top"; js "results"; js "map"])
  /\ startsWith (Router.current_hash w) (js "detail:") = false
  /\ Router.visible_pages (final_state (Router.handleHashChange w)) = [js "detail"]
  /\ Router.handleHashChange w <> Router.showPage (js "top") w.
Proof.
  cbv zeta. split; [vm_compute; reflexivity|].
  split; [vm_compute; intros H; repeat (apply elem_of_cons in H as [H|H]; [discriminate|]);
          by apply elem_of_nil in H|].
  split; [vm_compute; reflexivity|].
  assert (Hv : Router.visible_pages
                 (final_state (Router.handleHashChange (sample_world "#detail")))
               = [js "detail"]) by (vm_compute; reflexivity).
  split; [exact Hv|].
  intros Heq. rewrite Heq in Hv. vm_compute in Hv. discriminate.
Qed.

(** C1, amended: for every token that is none of the keys [top], [results],
    [map], [detail] of [pages], does not start with [detail:], and is not
    the name of a property objects inherit, [handleHashChange] does what
    [showPage('top')] does, so the top page, when the document has it, is
    the one page shown. *)
Theorem unknown_token_shows_top (w : World) :
  Router.current_hash w ∉ [js "top"; js "results"; js "map"; js "detail"] ->
  Router.current_hash w ∉ Router.Object_prototype_names ->
  startsWith (Router.current_hash w) (js "detail:") = false ->
  Router.handleHashChange w = Router.showPage (js "top") w
  /\ (is_Some (dom w !! "#page-top"%string) ->
      Router.visible_pages (final_state (Router.handleHashChange w)) = [js "top"]).
Proof.
  intros Hown Hinh Hshape.
  assert (Heq : Router.handleHashChange w = Router.showPage (js "top") w).
  { unfold Router.handleHashChange, eff_bind, gets.
    unfold Router.in_pages.
    rewrite (bool_decide_eq_false_2 _ Hown), (bool_decide_eq_false_2 _ Hinh).
    simpl. rewrite Hshape. reflexivity. }
  split; [exact Heq|].
  intros [e He]. rewrite Heq, showPage_visible.
  unfold Router.pages. simpl. rewrite He.
  destruct (dom w !! "#page-results"%string), (dom w !! "#page-map"%string),
    (dom w !! "#page-detail"%string); reflexivity.
Qed.

Lemma unknown_token_shows_top_witness :
  Router.visible_pages (final_state (Router.handleHashChange (sample_world "#gallery")))
  = [js "top"].
Proof.
  apply (unknown_token_shows_top (sample_world "#gallery")).
  - vm_compute. intros H.
    repeat (apply elem_of_cons in H as [H|H]; [discriminate|]). by apply elem_of_nil in H.
  - vm_compute. intros H.
    repeat (apply elem_of_cons in H as [H|H]; [discriminate|]). by apply elem_of_nil in H.
  - vm_compute. reflexivity.
  - vm_compute. eauto.
Defined.

(** C2 at a token that names an inherited property: [constructor in pages]
    holds, [showPage('constructor')] runs, no key equals the name, and all
    four pages end up hidden. *)
Lemma inherited_name_hides_every_page :
  let w := sample_world "#constructor" in
  Router.in_pages (Router.current_hash w) = true
  /\ Router.handleHashChange w = Router.showPage (js "constructor") w
  /\ Router.visible_pages (final_state (Router.handleHashChange w)) = [].
Proof. vm_compute. repeat split; reflexivity. Qed.

(** X1: Showing one of the four pages of a document that has them all leaves
    that page visible and the three others hidden. *)
Lemma showPage_exactly_one (name : jsstr) (w : World) :
  name ∈ Router.pages.*1 ->
  (forall sel, sel ∈ Router.pages.*2 -> is_Some (dom w !! sel)) ->
  Router.visible_pages (final_state (Router.showPage name w)) = [name].
Proof.
  intros Hname Hall. rewrite showPage_visible.
  unfold Router.pages in *. simpl in *.
  destruct (Hall "#page-top"%string) as [e1 ->]; [repeat constructor|].
  destruct (Hall "#page-results"%string) as [e2 ->]; [repeat constructor|].
  destruct (Hall "#page-map"%string) as [e3 ->]; [repeat constructor|].
  destruct (Hall "#page-detail"%string) as [e4 ->]; [repeat constructor|].
  repeat (apply elem_of_cons in Hname as [->|Hname]; [vm_compute; reflexivity|]).
  by apply elem_of_nil in Hname.
Qed.

(** ** Detail view *)

Lemma find_absent {A} (f : A -> bool) (l : list A) :
  (forall a, a ∈ l -> f a = false) -> List.find f l = None.
Proof.
  induction l as [|a l IH]; intros H; simpl; [reflexivity|].
  rewrite (H a) by constructor.
  apply IH. intros b Hb. apply H. by constructor.
Qed.

(** C7: for every id that no spot of the dataset has, the empty string
    included, [showDetail] returns without throwing in a document that has
    the five elements of the detail page it writes; these then hold the
    fixed placeholder, and the AR area, where there is one, is not displayed. *)
Theorem showDetail_unknown_id (spotId : jsstr) (w : World) :
  (forall s, s ∈ DUMMY_SPOTS -> s_id s <> spotId) ->
  is_Some (dom w !! "#detailTitle"%string) ->
  is_Some (dom w !! "#detailRegion"%string) ->
  is_Some (dom w !! "#detailDesc"%string) ->
  is_Some (dom w !! "#detailImage"%string) ->
  is_Some (dom w !! "#detailExtra"%string) ->
  exists w',
    Detail.showDetail spotId w = Ok tt w'
    /\ content <$> dom w' !! "#detailTitle"%string = Some (Text Detail.NOT_FOUND_TITLE)
    /\ content <$> dom w' !! "#detailRegion"%string = Some (Text [])
    /\ content <$> dom w' !! "#detailDesc"%string = Some (Text Detail.NOT_FOUND_DESC)
    /\ src <$> dom w' !! "#detailImage"%string
       = Some (Some (Detail.svg_rect (js "%23e0e0e0")))
    /\ content <$> dom w' !! "#detailExtra"%string = Some (Html [])
    /\ (forall e, dom w' !! "#detailArArea"%string = Some e -> display e = js "none").
Proof.
  intros Hmiss [e1 H1] [e2 H2] [e3 H3] [e4 H4] [e5 H5].
  unfold Detail.showDetail.
  rewrite find_absent; cycle 1.
  { intros s Hs. apply bool_decide_eq_false_2. by apply Hmiss. }
  unfold eff_bind, qs, gets, assign, modify, truthy.
  rewrite H1, H2, H3, H4, H5.
  destruct (dom w !! "#detailArArea"%string) as [ar|] eqn:Har; simpl;
    eexists; (split; [reflexivity|]); simpl;
    repeat split; try intros e;
    repeat first [rewrite lookup_alter_eq | rewrite lookup_alter_ne by done];
    rewrite ?H1, ?H2, ?H3, ?H4, ?H5, ?Har; simpl;
    try reflexivity.
  - intros [= <-]. reflexivity.
  - intros [=].
Qed.

Lemma showDetail_unknown_id_witness :
  exists w', Detail.showDetail [] (sample_world "#detail:") = Ok tt w'
    /\ content <$> dom w' !! "#detailTitle"%string = Some (Text Detail.NOT_FOUND_TITLE)
    /\ (forall e, dom w' !! "#detailArArea"%string = Some e -> display e = js "none").
Proof.
  destruct (showDetail_unknown_id [] (sample_world "#detail:"))
    as (w' & Hrun & Htitle & _ & _ & _ & _ & Har).
  - intros s Hs.
    repeat (apply elem_of_cons in Hs as [->|Hs]; [vm_compute; discriminate|]).
    by apply elem_of_nil in Hs.
  - vm_compute; eauto.
  - vm_compute; eauto.
  - vm_compute; eauto.
  - vm_compute; eauto.
  - vm_compute; eauto.
  - exists w'. repeat split; assumption.
Defined.

(** The scenario of the router: [detail:unknown-id] runs to the end and
    shows the detail page with the placeholder title. *)
Example unknown_detail_token :
  let o := Router.handleHashChange (sample_world "#detail:unknown-id") in
  returns o = true
  /\ Router.visible_pages (final_state o) = [js "detail"]
  /\ content <$> dom (final_state o) !! "#detailTitle"%string
     = Some (Text Detail.NOT_FOUND_TITLE).
Proof. vm_compute. repeat split; reflexivity. Qed.

(** A spot that is found: [s5] fills the page and shows the AR area. *)
Example known_detail_token :
  let o := Router.handleHashChange (sample_world "#detail:s5") in
  returns o = true
  /\ content <$> dom (final_state o) !! "#detailTitle"%string
     = Some (Text (js "陶芸の里の工房訪問"))
  /\ display <$> dom (final_state o) !! "#detailArArea"%string = Some (js "block").
Proof. vm_compute. repeat split; reflexivity. Qed.

(** ** Carousel: the autoplay timer *)

Lemma preserves_ret {St A} (P : St -> Prop) (a : A) : preserves P (eff_ret a).
Proof. intros s Hs. exact Hs. Qed.

Lemma preserves_gets {St A} (P : St -> Prop) (f : St -> A) : preserves P (gets f).
Proof. intros s Hs. exact Hs. Qed.

Lemma preserves_modify {St} (P : St -> Prop) (f : St -> St) :
  (forall s, P s -> P (f s)) -> preserves P (modify f).
Proof. intros Hf s Hs. apply Hf, Hs. Qed.

Lemma preserves_bind {St A B} (P : St -> Prop) (m : Eff St A) (k : A -> Eff St B) :
  preserves P m -> (forall a, preserves P (k a)) -> preserves P (eff_bind m k).
Proof.
  intros Hm Hk s Hs. unfold eff_bind.
  specialize (Hm s Hs). destruct (m s) as [a s'|e s']; simpl in *.
  - apply Hk, Hm.
  - exact Hm.
Qed.

Lemma preserves_throw {St A} (P : St -> Prop) (e : exn) : preserves P (@throw St A e).
Proof. intros s Hs. exact Hs. Qed.

Lemma preserves_if {St A} (P : St -> Prop) (b : bool) (m1 m2 : Eff St A) :
  preserves P m1 -> preserves P m2 -> preserves P (if b then m1 else m2).
Proof. destruct b; intros H1 H2; assumption. Qed.

Section AutoplayTimer.

Import Carousel.

Lemma timers_ok_loaded n w tr d prev next : timers_ok (loaded n w tr d prev next).
Proof. split; [reflexivity|]. intros h [=]. Qed.

Lemma assign_track_keeps f : preserves timers_ok (assign_track f).
Proof.
  intros s Hs. unfold assign_track. destruct (track s) eqn:Ht; simpl; [|exact Hs].
  exact Hs.
Qed.

Lemma each_dot_keeps f : preserves timers_ok (each_dot f).
Proof. intros s Hs. unfold each_dot. destruct (dots s); exact Hs. Qed.

Lemma createDots_keeps : preserves timers_ok createDots.
Proof. intros s Hs. unfold createDots. destruct (dots s); exact Hs. Qed.

(** An assignment to a variable or an element other than the timer ones. *)
Ltac keeps_step :=
  first [ apply preserves_bind; [|intros ?]
        | apply preserves_if
        | apply preserves_gets
        | apply preserves_ret
        | apply preserves_throw
        | apply assign_track_keeps
        | apply each_dot_keeps
        | apply createDots_keeps
        | apply preserves_modify; intros s Hs; exact Hs ].

Lemma goToSlide_keeps index : preserves timers_ok (goToSlide index).
Proof. unfold goToSlide. repeat keeps_step. Qed.

Lemma prevSlide_keeps : preserves timers_ok prevSlide.
Proof. unfold prevSlide. repeat first [apply goToSlide_keeps | keeps_step]. Qed.

Lemma nextSlide_keeps : preserves timers_ok nextSlide.
Proof. unfold nextSlide. repeat first [apply goToSlide_keeps | keeps_step]. Qed.

Lemma listen_keeps present added :
  (forall s, timers_ok s -> timers_ok (added s)) -> preserves timers_ok (listen present added).
Proof.
  intros H. unfold listen.
  apply preserves_bind; [apply preserves_gets|]. intros b.
  apply preserves_if; [apply preserves_modify, H|apply preserves_throw].
Qed.

(** [stopAutoplay] returns; of the timers set it clears the one
    [autoplayTimer] holds, and [autoplayTimer] becomes [null]. *)
Lemma stopAutoplay_run (s : State) :
  exists s', stopAutoplay s = Ok tt s'
    /\ intervals s' = intervals s ∖ from_option singleton ∅ (autoplayTimer s)
    /\ autoplayTimer s' = None
    /\ next_handle s' = next_handle s.
Proof.
  unfold stopAutoplay, eff_bind, gets, clearInterval, modify.
  destruct (autoplayTimer s) as [h|] eqn:Ht; simpl; eexists; (split; [reflexivity|]); simpl.
  - auto.
  - rewrite Ht. simpl. rewrite difference_empty_L. auto.
Qed.

(** [startAutoplay] returns; it clears the timer [autoplayTimer] holds, sets
    one with a fresh handle and stores that handle. *)
Lemma startAutoplay_run (s : State) :
  exists s', startAutoplay s = Ok tt s'
    /\ intervals s' =
       {[next_handle s]} ∪ (intervals s ∖ from_option singleton ∅ (autoplayTimer s))
    /\ autoplayTimer s' = Some (next_handle s)
    /\ next_handle s' = Pos.succ (next_handle s).
Proof.
  destruct (stopAutoplay_run s) as (s1 & Hrun & Hi & Ht & Hn).
  unfold startAutoplay, eff_bind. rewrite Hrun.
  unfold setInterval, modify. simpl. eexists. split; [reflexivity|]. simpl.
  rewrite Hi, Hn. auto.
Qed.

Lemma stopAutoplay_keeps : preserves timers_ok stopAutoplay.
Proof.
  intros s [Hi Hfresh].
  destruct (stopAutoplay_run s) as (s' & -> & Hi' & Ht' & Hn'). simpl.
  split.
  - rewrite Hi', Ht', Hi. simpl. apply difference_diag_L.
  - rewrite Ht'. intros h [=].
Qed.

Lemma startAutoplay_keeps : preserves timers_ok startAutoplay.
Proof.
  intros s [Hi Hfresh].
  destruct (startAutoplay_run s) as (s' & -> & Hi' & Ht' & Hn'). simpl.
  split.
  - rewrite Hi', Ht', Hi. simpl. rewrite difference_diag_L. apply union_empty_r_L.
  - rewrite Ht', Hn'. intros h [= <-]. lia.
Qed.

Ltac keeps :=
  repeat first [ apply goToSlide_keeps | apply prevSlide_keeps | apply nextSlide_keeps
               | apply stopAutoplay_keeps | apply startAutoplay_keeps
               | apply listen_keeps; intros s Hs; exact Hs
               | keeps_step ].

Lemma endSwipe_keeps x : preserves timers_ok (endSwipe x).
Proof. unfold endSwipe. keeps. Qed.

Lemma handle_keeps e : preserves timers_ok (handle e).
Proof. destruct e; simpl; first [apply endSwipe_keeps | keeps]. Qed.

Lemma initCarousel_keeps : preserves timers_ok initCarousel.
Proof. unfold initCarousel. keeps. Qed.

Lemma run_timers_ok es n w tr d prev next :
  timers_ok (run es (loaded n w tr d prev next)).
Proof.
  unfold run.
  assert (H0 : timers_ok (final_state (initCarousel (loaded n w tr d prev next))))
    by apply initCarousel_keeps, timers_ok_loaded.
  revert H0. generalize (final_state (initCarousel (loaded n w tr d prev next))).
  induction es as [|e es IH]; intros s Hs; simpl; [exact Hs|].
  apply IH, handle_keeps, Hs.
Qed.

End AutoplayTimer.

(** C8: in every state the carousel reaches from load, whatever the events,
    at most one interval timer is set, the one [autoplayTimer] holds; and
    [startAutoplay] there returns with the timer it found cleared and
    exactly one timer, a new one, set. *)
Theorem startAutoplay_single_timer
    (n : nat) (w : Z) (tr : option Carousel.Track) (d : option (list bool))
    (prev next : bool) (es : list Carousel.Event) :
  let s := Carousel.run es (Carousel.loaded n w tr d prev next) in
  (size (Carousel.intervals s) <= 1)%nat
  /\ Carousel.intervals s = from_option singleton ∅ (Carousel.autoplayTimer s)
  /\ exists s',
       Carousel.startAutoplay s = Ok tt s'
       /\ Carousel.autoplayTimer s' = Some (Carousel.next_handle s)
       /\ Carousel.intervals s' = {[Carousel.next_handle s]}
       /\ (forall h, Carousel.autoplayTimer s = Some h -> h ∉ Carousel.intervals s').
Proof.
  intros s. destruct (run_timers_ok es n w tr d prev next) as [Hi Hfresh].
  fold s in Hi, Hfresh.
  split; [|split; [exact Hi|]].
  - rewrite Hi. destruct (Carousel.autoplayTimer s); cbn [from_option].
    + rewrite size_singleton. lia.
    + rewrite size_empty. lia.
  - destruct (startAutoplay_run s) as (s' & Hrun & Hi' & Ht' & _).
    assert (Hone : Carousel.intervals s' = {[Carousel.next_handle s]}).
    { rewrite Hi', Hi, difference_diag_L. apply union_empty_r_L. }
    exists s'. repeat split; try assumption.
    intros h Hh. rewrite Hone. specialize (Hfresh h Hh).
    intros Hin%elem_of_singleton. lia.
Qed.

(** Autoplay started twice in a row: the first timer is gone, one is set. *)
Example restart_autoplay :
  let s := Carousel.run [Carousel.MouseLeave; Carousel.MouseLeave] five_slides in
  Carousel.autoplayTimer s = Some 3%positive
  /\ elements (Carousel.intervals s) = [3%positive].
Proof. vm_compute. split; reflexivity. Qed.

(** ** Result page *)

Lemma filter_sublist {A} (f : A -> bool) (l : list A) : List.filter f l `sublist_of` l.
Proof.
  induction l as [|a l IH]; simpl; [constructor|].
  destruct (f a); by constructor.
Qed.

Lemma sublist_elem_of {A} (k l : list A) (a : A) : k `sublist_of` l -> a ∈ k -> a ∈ l.
Proof. intros Hs Ha. by apply (sublist_subseteq k l Hs). Qed.

Lemma trimStart_white (s : jsstr) : forallb is_white s = true -> trimStart s = [].
Proof.
  induction s as [|c s IH]; simpl; [reflexivity|].
  intros [Hc Hs]%andb_prop. rewrite Hc. auto.
Qed.

Lemma trim_white (s : jsstr) : forallb is_white s = true -> trim s = [].
Proof. intros H. unfold trim. rewrite trimStart_white by exact H. reflexivity. Qed.

(** Every spot of the dataset has a card: its colour has no lone surrogate. *)
Lemma dataset_card (s : Spot) : s ∈ DUMMY_SPOTS -> is_Some (make_card s).
Proof.
  intros Hs.
  repeat (apply elem_of_cons in Hs as [->|Hs]; [vm_compute; eauto|]).
  by apply elem_of_nil in Hs.
Qed.

Section ResultsFacts.

Import Results.

Variable toLowerCase : jsstr -> jsstr.

Lemma filtered_sublist (kw pref city : jsstr) (cats : list jsstr) :
  filtered toLowerCase kw pref city cats `sublist_of` DUMMY_SPOTS.
Proof.
  unfold filtered.
  repeat match goal with
         | |- (if ?b then _ else _) `sublist_of` _ => destruct b
         | |- List.filter _ _ `sublist_of` _ => etransitivity; [apply filter_sublist|]
         end; reflexivity.
Qed.

Lemma render_cards (l : list Spot) (p : Page) :
  (forall s, s ∈ l -> s ∈ DUMMY_SPOTS) ->
  forEach (fun s => match make_card s with
                    | Some c => appendChild (Article c)
                    | None => throw URIError
                    end) l p
  = Ok tt (with_grid (resultsGrid p ++ cards l) p).
Proof.
  revert p. induction l as [|s l IH]; intros p Hl; simpl.
  - unfold eff_ret, cards. simpl. rewrite app_nil_r. by destruct p.
  - destruct (dataset_card s) as [c Hc]; [apply Hl; constructor|].
    unfold eff_bind. rewrite Hc. unfold appendChild, modify at 1.
    rewrite IH by (intros s' Hs'; apply Hl; by constructor).
    unfold cards. simpl. rewrite Hc. simpl. rewrite <- app_assoc. reflexivity.
Qed.

(** [runResultsSearch] returns, and what it writes is a function of the
    four values it read from the form. *)
Lemma runResultsSearch_run (p : Page) :
  runResultsSearch toLowerCase p =
    Ok tt (with_grid
             (grid_of (filtered toLowerCase (keyword p) (pref p) (city p) (selectedCats p)))
             (with_title_desc (js "検索結果")
                (summary (keyword p) (pref p) (city p) (selectedCats p)) p)).
Proof.
  unfold runResultsSearch, eff_bind, gets, modify at 1 2. unfold grid_of.
  set (list := filtered toLowerCase (keyword p) (pref p) (city p) (selectedCats p)).
  destruct (bool_decide (list = [])) eqn:Hl.
  - reflexivity.
  - rewrite render_cards.
    + reflexivity.
    + intros s Hs. eapply sublist_elem_of; [apply filtered_sublist|exact Hs].
Qed.

Lemma cards_Forall2 (l : list Spot) :
  (forall s, s ∈ l -> s ∈ DUMMY_SPOTS) ->
  Forall2 (fun s ch => exists c, make_card s = Some c /\ ch = Article c) l (cards l).
Proof.
  induction l as [|s l IH]; intros Hl; unfold cards; simpl; [constructor|].
  destruct (dataset_card s) as [c Hc]; [apply Hl; constructor|].
  rewrite Hc. simpl. constructor; [eauto|].
  apply IH. intros s' Hs'. apply Hl. by constructor.
Qed.

End ResultsFacts.

(** C5: with an empty keyword, no prefecture, no city (none chosen, or the
    city list disabled) and no category checked, the filters leave the whole
    dataset, the summary is the generic text, and the grid gets one card per
    spot of the dataset, in order. *)
Theorem no_criteria_shows_all (toLowerCase : jsstr -> jsstr) (p : Results.Page) :
  Results.resultsKeyword p = [] ->
  Results.prefSelect p = [] ->
  Results.citySelect_disabled p = true \/ Results.citySelect p = [] ->
  Results.selectedCats p = [] ->
  Results.filtered toLowerCase (Results.keyword p) (Results.pref p) (Results.city p)
    (Results.selectedCats p) = DUMMY_SPOTS
  /\ exists p',
       Results.runResultsSearch toLowerCase p = Ok tt p'
       /\ Results.resultsDesc p' = Results.SHOW_ALL
       /\ Forall2 (fun s ch => exists c, make_card s = Some c /\ ch = Article c)
            DUMMY_SPOTS (Results.resultsGrid p').
Proof.
  intros Hkw Hpref Hcity Hcats.
  assert (Hk : Results.keyword p = []) by (unfold Results.keyword; rewrite Hkw; reflexivity).
  assert (Hp : Results.pref p = []) by (unfold Results.pref; rewrite Hpref; reflexivity).
  assert (Hc : Results.city p = []).
  { unfold Results.city. destruct Hcity as [-> | ->]; [reflexivity|].
    by destruct (Results.citySelect_disabled p). }
  rewrite runResultsSearch_run, Hk, Hp, Hc, Hcats.
  split; [reflexivity|].
  eexists. split; [reflexivity|]. split; [reflexivity|].
  apply cards_Forall2. auto.
Qed.

Lemma no_criteria_shows_all_witness :
  Results.filtered (fun s => s) (Results.keyword empty_form) (Results.pref empty_form)
    (Results.city empty_form) (Results.selectedCats empty_form) = DUMMY_SPOTS
  /\ exists p',
       Results.runResultsSearch (fun s => s) empty_form = Ok tt p'
       /\ Results.resultsDesc p' = Results.SHOW_ALL
       /\ Forall2 (fun s ch => exists c, make_card s = Some c /\ ch = Article c)
            DUMMY_SPOTS (Results.resultsGrid p').
Proof.
  apply (no_criteria_shows_all (fun s => s) empty_form).
  - reflexivity.
  - reflexivity.
  - left. reflexivity.
  - reflexivity.
Defined.

(** C9: a keyword made of white space only is trimmed to the empty string,
    the keyword filter is skipped, and the search writes the title, summary
    and grid it writes for the same form with the keyword field empty. *)
Theorem blank_keyword_ignored (toLowerCase : jsstr -> jsstr) (p : Results.Page) :
  forallb is_white (Results.resultsKeyword p) = true ->
  Results.keyword p = []
  /\ Results.filtered toLowerCase (Results.keyword p) (Results.pref p) (Results.city p)
       (Results.selectedCats p)
     = Results.filtered toLowerCase [] (Results.pref p) (Results.city p)
         (Results.selectedCats p)
  /\ exists p1 p2,
       Results.runResultsSearch toLowerCase p = Ok tt p1
       /\ Results.runResultsSearch toLowerCase (Results.with_keyword [] p) = Ok tt p2
       /\ Results.resultsTitle p1 = Results.resultsTitle p2
       /\ Results.resultsDesc p1 = Results.resultsDesc p2
       /\ Results.resultsGrid p1 = Results.resultsGrid p2.
Proof.
  intros Hw.
  assert (Hk : Results.keyword p = []).
  { unfold Results.keyword. destruct (Results.resultsKeyword p) as [|c r] eqn:Hv.
    - reflexivity.
    - simpl or_default. apply trim_white. exact Hw. }
  split; [exact Hk|]. split; [rewrite Hk; reflexivity|].
  do 2 eexists. rewrite !runResultsSearch_run.
  split; [reflexivity|]. split; [reflexivity|].
  rewrite Hk. repeat split; reflexivity.
Qed.

Lemma blank_keyword_ignored_witness :
  forallb is_white (Results.resultsKeyword blank_keyword_form) = true
  /\ Results.keyword blank_keyword_form = [].
Proof.
  split; [vm_compute; reflexivity|].
  apply (blank_keyword_ignored (fun s => s) blank_keyword_form).
  vm_compute; reflexivity.
Defined.

(** C10: for every keyword, prefecture, city and set of categories, the list
    left by the filters is a subsequence of the dataset, in dataset order;
    and whatever the form holds, the search returns and the grid gets the
    cards of that list in that order (or the one paragraph when it is
    empty). *)
Theorem filtered_keeps_order (toLowerCase : jsstr -> jsstr) (p : Results.Page) :
  let list := Results.filtered toLowerCase (Results.keyword p) (Results.pref p)
                (Results.city p) (Results.selectedCats p) in
  (forall kw pref city cats,
     Results.filtered toLowerCase kw pref city cats `sublist_of` DUMMY_SPOTS)
  /\ exists p',
       Results.runResultsSearch toLowerCase p = Ok tt p'
       /\ (list <> [] ->
           Forall2 (fun s ch => exists c, make_card s = Some c /\ ch = Article c)
             list (Results.resultsGrid p'))
       /\ (list = [] -> Results.resultsGrid p' = [Paragraph Results.NO_RESULTS]).
Proof.
  intros list. split; [apply filtered_sublist|].
  eexists. split; [apply runResultsSearch_run|]. fold list. simpl.
  unfold Results.grid_of. split; intros Hl.
  - rewrite bool_decide_eq_false_2 by exact Hl.
    apply cards_Forall2. intros s Hs.
    eapply sublist_elem_of; [apply filtered_sublist|exact Hs].
  - rewrite bool_decide_eq_true_2 by exact Hl. reflexivity.
Qed.

(** The scenarios of the filter, for strings lower-casing leaves alone. *)
Example filter_scenarios :
  let ids kw pref city := s_id <$> Results.filtered (fun s => s) kw pref city [] in
  ids (js "陶芸") [] [] = [js "s5"]
  /\ ids [] (js "京都府") [] = [js "s2"; js "s4"]
  /\ ids [] (js "愛知県") (js "岡崎市") = [js "s5"].
Proof. vm_compute. repeat split; reflexivity. Qed.

(** ** Pseudo map *)

(** [<=] on doubles is transitive: it is false as soon as one side is
    [NaN], and a linear order (up to the sign of zero) on the rest. *)
Lemma SFleb_trans (x y z : spec_float) :
  SFleb x y = true -> SFleb y z = true -> SFleb x z = true.
Proof.
  unfold SFleb, SFcompare.
  destruct x as [sx|sx| |sx mx ex], y as [sy|sy| |sy my ey], z as [sz|sz| |sz mz ez];
    try destruct sx; try destruct sy; try destruct sz;
    try reflexivity; try discriminate.
  all: rewrite ?Pos.compare_cont_spec; simpl Pos.switch_Eq;
       destruct (Z.compare_spec ex ey), (Z.compare_spec ey ez), (Z.compare_spec ex ez);
       try lia; try reflexivity; try discriminate; subst;
       destruct (Pos.compare_spec mx my), (Pos.compare_spec my mz),
         (Pos.compare_spec mx mz);
       try lia; try reflexivity; try discriminate.
Qed.

Lemma float_leb_trans (a b c : float) :
  PrimFloat.leb a b = true -> PrimFloat.leb b c = true -> PrimFloat.leb a c = true.
Proof. rewrite !leb_spec. apply SFleb_trans. Qed.

Lemma in_circle_monotone (cx cy r1 r2 : float) (s : Spot) :
  PrimFloat.leb r1 r2 = true ->
  Map.in_circle {| Map.c_x := cx; Map.c_y := cy; Map.c_r := r1 |} s = true ->
  Map.in_circle {| Map.c_x := cx; Map.c_y := cy; Map.c_r := r2 |} s = true.
Proof.
  intros Hr. unfold Map.in_circle. simpl.
  destruct (Map.coord_of (s_id s)) as [c|]; [|discriminate].
  intros Hd. exact (float_leb_trans _ _ _ Hd Hr).
Qed.

(** C6: for a fixed centre, when [r1 <= r2] every spot [renderCircleResults]
    finds inside the circle of radius [r1] it also finds inside the circle
    of radius [r2], and the smaller result is a subsequence of the larger. *)
Theorem inside_monotone_in_radius (cx cy r1 r2 : float) :
  PrimFloat.leb r1 r2 = true ->
  let small := Map.inside {| Map.c_x := cx; Map.c_y := cy; Map.c_r := r1 |} in
  let large := Map.inside {| Map.c_x := cx; Map.c_y := cy; Map.c_r := r2 |} in
  (forall s, s ∈ small -> s ∈ large) /\ small `sublist_of` large.
Proof.
  intros Hr small large. subst small large. unfold Map.inside.
  pose proof (in_circle_monotone cx cy r1 r2) as Hmono.
  split.
  - intros s. rewrite !list_elem_of_In, !filter_In.
    intros [Hs Hin]. split; [exact Hs|]. apply Hmono; assumption.
  - induction DUMMY_SPOTS as [|s l IH]; simpl; [constructor|].
    destruct (Map.in_circle {| Map.c_x := cx; Map.c_y := cy; Map.c_r := r1 |} s) eqn:H1.
    + rewrite (Hmono s Hr H1). by constructor.
    + destruct (Map.in_circle {| Map.c_x := cx; Map.c_y := cy; Map.c_r := r2 |} s);
        [by constructor|exact IH].
Qed.

Lemma inside_monotone_in_radius_witness :
  PrimFloat.leb 40 80 = true
  /\ Map.inside {| Map.c_x := 300; Map.c_y := 200; Map.c_r := 40 |}
     `sublist_of` Map.inside {| Map.c_x := 300; Map.c_y := 200; Map.c_r := 80 |}.
Proof.
  split; [vm_compute; reflexivity|].
  apply (inside_monotone_in_radius 300 200 40 80). vm_compute; reflexivity.
Defined.

(** The scenario of the map: the circle the script starts with holds [s1]
    and [s5]; with radius 40 the spot [s1], at distance exactly 40, is still
    inside, and with radius 0 nothing is. *)
Example circle_scenarios :
  s_id <$> Map.inside Map.initial_circle = [js "s1"; js "s5"]
  /\ s_id <$> Map.inside {| Map.c_x := 300; Map.c_y := 200; Map.c_r := 40 |}
     = [js "s1"; js "s5"]
  /\ s_id <$> Map.inside {| Map.c_x := 300; Map.c_y := 200; Map.c_r := 0 |} = [].
Proof. vm_compute. repeat split; reflexivity. Qed.

(** * Further properties *)

(** ** Router: what [showPage] and [handleHashChange] change *)

Section RouterMore.

Import Router.

(** The document [showPage] leaves, as four updates of hidden flags. *)
Lemma showPage_dom (name : jsstr) (w : World) :
  dom (final_state (showPage name w)) =
    alter (set_hidden (negb (str_eqb (js "detail") name))) "#page-detail"%string
      (alter (set_hidden (negb (str_eqb (js "map") name))) "#page-map"%string
         (alter (set_hidden (negb (str_eqb (js "results") name))) "#page-results"%string
            (alter (set_hidden (negb (str_eqb (js "top") name))) "#page-top"%string
               (dom w)))).
Proof.
  unfold showPage, eff_bind, modify, pages. simpl.
  apply map_eq. intros sel.
  destruct (dom w !! "#page-top"%string) as [e1|] eqn:H1; simpl;
  rewrite ?lookup_alter_ne by done;
  destruct (dom w !! "#page-results"%string) as [e2|] eqn:H2; simpl;
  rewrite ?lookup_alter_ne by done;
  destruct (dom w !! "#page-map"%string) as [e3|] eqn:H3; simpl;
  rewrite ?lookup_alter_ne by done;
  destruct (dom w !! "#page-detail"%string) as [e4|] eqn:H4; simpl;
  rewrite !lookup_alter;
  repeat case_decide; subst; rewrite ?H1, ?H2, ?H3, ?H4; try reflexivity; try congruence.
Qed.

Lemma showPage_state (name : jsstr) (w : World) :
  showPage name w = Ok tt (final_state (showPage name w)).
Proof. reflexivity. Qed.

Lemma showPage_hash (name : jsstr) (w : World) :
  location_hash (final_state (showPage name w)) = location_hash w.
Proof.
  unfold showPage, eff_bind, modify, pages. simpl.
  repeat match goal with
         | |- context [match ?x with Some _ => _ | None => _ end] => destruct x; simpl
         end; reflexivity.
Qed.

End RouterMore.

Lemma showPage_exactly_one_witness :
  Router.visible_pages (final_state (Router.showPage (js "map") (sample_world "#top")))
  = [js "map"].
Proof.
  apply (showPage_exactly_one (js "map") (sample_world "#top")).
  - vm_compute. repeat constructor.
  - intros sel Hsel.
    repeat (apply elem_of_cons in Hsel as [->|Hsel]; [vm_compute; eauto|]).
    by apply elem_of_nil in Hsel.
Defined.

(** X2: [showPage] returns for every name, sends the window to the top, and of
    the document changes nothing but the hidden flags of the page elements:
    no element appears or disappears, other elements are untouched, and a
    page element keeps its content, sources, display and handler. *)
Theorem showPage_changes_only_hidden (name : jsstr) (w : World) (sel : string) :
  exists w',
    Router.showPage name w = Ok tt w'
    /\ scrollTop w' = 0
    /\ location_hash w' = location_hash w
    /\ (sel ∉ Router.pages.*2 -> dom w' !! sel = dom w !! sel)
    /\ match dom w !! sel, dom w' !! sel with
       | Some e, Some e' =>
         content e' = content e /\ src e' = src e /\ ios_src e' = ios_src e
         /\ display e' = display e /\ onclick e' = onclick e
       | None, None => True
       | _, _ => False
       end.
Proof.
  exists (final_state (Router.showPage name w)).
  split; [reflexivity|]. split; [reflexivity|]. split; [apply showPage_hash|].
  rewrite showPage_dom. split.
  - intros Hsel. unfold Router.pages in Hsel. simpl in Hsel.
    rewrite !lookup_alter_ne; [reflexivity|..];
      intros <-; apply Hsel; repeat constructor.
  - rewrite !lookup_alter.
    repeat case_decide; subst; simplify_eq;
      destruct (dom w !! _) as [e|]; simpl; auto.
Qed.

(** Of two calls of [showPage] the last one decides what is visible. *)
Theorem showPage_last_wins (a b : jsstr) (w : World) :
  Router.visible_pages (final_state (Router.showPage b (final_state (Router.showPage a w))))
  = Router.visible_pages (final_state (Router.showPage b w)).
Proof.
  rewrite !showPage_visible, showPage_dom. unfold Router.pages.
  cbn [omap list_omap].
  repeat first [rewrite lookup_alter_eq | rewrite lookup_alter_ne by done].
  destruct (dom w !! "#page-top"%string), (dom w !! "#page-results"%string),
    (dom w !! "#page-map"%string), (dom w !! "#page-detail"%string); reflexivity.
Qed.

(** X3: A token that is a key of [pages] shows that page and nothing else: the
    router returns, the page is the one visible page of a document that has
    all four, and no element outside the pages is changed (the detail view
    is not filled). *)
Theorem page_token_shows_its_page (w : World) :
  Router.current_hash w ∈ Router.pages.*1 ->
  (forall sel, sel ∈ Router.pages.*2 -> is_Some (dom w !! sel)) ->
  exists w',
    Router.handleHashChange w = Ok tt w'
    /\ Router.visible_pages w' = [Router.current_hash w]
    /\ forall sel, sel ∉ Router.pages.*2 -> dom w' !! sel = dom w !! sel.
Proof.
  intros Hkey Hall.
  assert (Hrun : Router.handleHashChange w = Router.showPage (Router.current_hash w) w).
  { unfold Router.handleHashChange, eff_bind, gets, Router.in_pages.
    rewrite (bool_decide_eq_true_2 _ Hkey). reflexivity. }
  exists (final_state (Router.showPage (Router.current_hash w) w)).
  split; [rewrite Hrun; reflexivity|]. split.
  - rewrite showPage_visible. unfold Router.pages in *. simpl in *.
    destruct (Hall "#page-top"%string) as [e1 ->]; [repeat constructor|].
    destruct (Hall "#page-results"%string) as [e2 ->]; [repeat constructor|].
    destruct (Hall "#page-map"%string) as [e3 ->]; [repeat constructor|].
    destruct (Hall "#page-detail"%string) as [e4 ->]; [repeat constructor|].
    repeat (apply elem_of_cons in Hkey as [->|Hkey]; [vm_compute; reflexivity|]).
    by apply elem_of_nil in Hkey.
  - intros sel Hsel. rewrite showPage_dom. unfold Router.pages in Hsel. simpl in Hsel.
    rewrite !lookup_alter_ne; [reflexivity|..];
      intros <-; apply Hsel; repeat constructor.
Qed.

Lemma page_token_shows_its_page_witness :
  exists w',
    Router.handleHashChange (sample_world "#results") = Ok tt w'
    /\ Router.visible_pages w' = [Router.current_hash (sample_world "#results")]
    /\ forall sel, sel ∉ Router.pages.*2 ->
         dom w' !! sel = dom (sample_world "#results") !! sel.
Proof.
  apply (page_token_shows_its_page (sample_world "#results")).
  - vm_compute. repeat constructor.
  - intros sel Hsel.
    repeat (apply elem_of_cons in Hsel as [->|Hsel]; [vm_compute; eauto|]).
    by apply elem_of_nil in Hsel.
Defined.

(** ** Detail view: what [showDetail] writes and when it throws *)

Lemma preserves_qs (P : World -> Prop) {A} (sel : string) (k : ref -> Eff World A) :
  (forall r, r = None \/ r = Some sel -> preserves P (k r)) ->
  preserves P (eff_bind (qs sel) k).
Proof.
  intros Hk s Hs. unfold eff_bind, qs, gets.
  apply Hk; [|exact Hs]. destruct (dom s !! sel); auto.
Qed.

Lemma assign_untouched (sels : list string) (w0 : World) (r : ref) (sel : string)
    (f : Elem -> Elem) :
  r = None \/ r = Some sel -> sel ∈ sels ->
  preserves (untouched_outside sels w0) (assign r f).
Proof.
  intros [-> | ->] Hsel w (Hs & Hh & Hd); [by repeat split|].
  unfold assign, modify, final_state, with_dom, untouched_outside.
  cbn [dom scrollTop location_hash].
  repeat split; try assumption.
  intros sel' Hsel'. rewrite lookup_alter_ne; [by apply Hd|].
  intros <-. by apply Hsel'.
Qed.

Lemma showDetail_untouched (spotId : jsstr) (w0 : World) :
  preserves (untouched_outside detail_selectors w0) (Detail.showDetail spotId).
Proof.
  unfold Detail.showDetail.
  do 9 (apply preserves_qs; intros ? ?).
  destruct (List.find _ DUMMY_SPOTS) as [spot|];
    repeat match goal with
           | |- preserves _ (eff_bind _ _) => apply preserves_bind; [|intros ?]
           | |- preserves _ (if _ then _ else _) => apply preserves_if
           | |- preserves _ (eff_ret _) => apply preserves_ret
           | |- preserves _ (throw _) => apply preserves_throw
           | |- preserves _ (assign _ _) =>
             eapply assign_untouched; [eassumption|unfold detail_selectors; repeat constructor]
           | |- preserves _ (match ?x with Some _ => _ | None => _ end) => destruct x
           end.
Qed.

Lemma untouched_visible (w0 w : World) :
  untouched_outside detail_selectors w0 w ->
  Router.visible_pages w = Router.visible_pages w0.
Proof.
  intros (_ & _ & Hd). unfold Router.visible_pages, Router.pages. simpl.
  rewrite !Hd; [reflexivity|..];
    intros Hin; apply list_elem_of_In in Hin; simpl in Hin;
    repeat (destruct Hin as [Hin|Hin]; [discriminate|]); exact Hin.
Qed.

(** X4: [showDetail], whether it returns or throws, changes nothing but the
    nine elements of the detail page it looks up: the window position, the
    hash, every other element and so the page that is visible stay. *)
Theorem showDetail_touches_only_detail (spotId : jsstr) (w : World) :
  let w' := final_state (Detail.showDetail spotId w) in
  untouched_outside detail_selectors w w'
  /\ Router.visible_pages w' = Router.visible_pages w.
Proof.
  intros w'.
  assert (H : untouched_outside detail_selectors w w').
  { apply showDetail_untouched. by repeat split. }
  split; [exact H|]. by apply untouched_visible.
Qed.

Lemma find_spot_some (spotId : jsstr) (spot : Spot) :
  List.find (fun s => str_eqb (s_id s) spotId) DUMMY_SPOTS = Some spot ->
  spot ∈ DUMMY_SPOTS /\ s_id spot = spotId.
Proof.
  intros [Hin Heq]%find_some. split; [by apply list_elem_of_In|].
  by apply bool_decide_eq_true_1 in Heq.
Qed.

(** The ids of the dataset are distinct: looking one up finds its spot. *)
Lemma find_spot_own (s : Spot) :
  s ∈ DUMMY_SPOTS ->
  List.find (fun x => str_eqb (s_id x) (s_id s)) DUMMY_SPOTS = Some s.
Proof.
  intros Hs.
  repeat (apply elem_of_cons in Hs as [->|Hs]; [vm_compute; reflexivity|]).
  by apply elem_of_nil in Hs.
Qed.

Lemma dataset_fill (s : Spot) :
  s ∈ DUMMY_SPOTS -> exists fill, encodeURIComponent (s_color s) = Some fill.
Proof.
  intros Hs.
  repeat (apply elem_of_cons in Hs as [->|Hs]; [vm_compute; eauto|]).
  by apply elem_of_nil in Hs.
Qed.

(** Unfold a run of [showDetail] down to the lookups in the document. *)
Ltac detail_unfold :=
  unfold Detail.showDetail, eff_bind, qs, gets, assign, modify, truthy, throw, eff_ret.

Ltac detail_lookups :=
  repeat first [rewrite lookup_alter_eq | rewrite lookup_alter_ne by done].

(** A spot of the dataset, in a document with the five required elements. *)
Lemma showDetail_hit (s : Spot) (w : World) :
  s ∈ DUMMY_SPOTS ->
  (forall sel, sel ∈ detail_required -> is_Some (dom w !! sel)) ->
  exists w',
    Detail.showDetail (s_id s) w = Ok tt w'
    /\ content <$> dom w' !! "#detailTitle"%string = Some (Text (s_title s))
    /\ content <$> dom w' !! "#detailRegion"%string
       = Some (Text (js "地域：" ++ s_region s))
    /\ content <$> dom w' !! "#detailDesc"%string
       = Some (Text (s_desc s ++ js "（詳細ページサンプル）"))
    /\ content <$> dom w' !! "#detailExtra"%string = Some (Html Detail.EXTRA_HTML).
Proof.
  intros Hs Hreq.
  destruct (Hreq "#detailTitle"%string) as [e1 H1]; [repeat constructor|].
  destruct (Hreq "#detailRegion"%string) as [e2 H2]; [repeat constructor|].
  destruct (Hreq "#detailDesc"%string) as [e3 H3]; [repeat constructor|].
  destruct (Hreq "#detailImage"%string) as [e4 H4]; [repeat constructor|].
  destruct (Hreq "#detailExtra"%string) as [e5 H5]; [repeat constructor|].
  destruct (dataset_fill s Hs) as [fill Hfill].
  detail_unfold. rewrite (find_spot_own s Hs), H1, H2, H3, H4, H5, Hfill.
  destruct (str_eqb (s_id s) (js "s5"));
  destruct (dom w !! "#detailArArea"%string) as [ar|] eqn:Har;
  destruct (dom w !! "#detailModelViewer"%string) as [mv|] eqn:Hmv;
  destruct (dom w !! "#detailArBtn"%string) as [ab|] eqn:Hab;
  destruct (dom w !! "#mvArBtn"%string) as [mb|] eqn:Hmb;
  cbn [bool_decide andb is_Some decide_rel]; simpl bool_decide;
  (eexists; split; [reflexivity|]);
  unfold with_dom; cbn [dom];
  repeat split; detail_lookups; rewrite ?H1, ?H2, ?H3, ?H5; reflexivity.
Qed.

(** The branch of the router for [detail:<id>] tokens. *)
Lemma route_detail (w : World) (id : jsstr) :
  Router.in_pages (Router.current_hash w) = false ->
  startsWith (Router.current_hash w) (js "detail:") = true ->
  or_default (split_at 58 (Router.current_hash w) !! 1%nat) [] = id ->
  Router.handleHashChange w
  = eff_bind (Detail.showDetail id) (fun _ => Router.showPage (js "detail")) w.
Proof.
  intros H1 H2 H3. unfold Router.handleHashChange, eff_bind at 1, gets.
  rewrite H1, H2. cbv zeta. rewrite H3. reflexivity.
Qed.

(** The hash a card button sets, as the router reads it. *)
Lemma card_hash_parsed (s : Spot) :
  s ∈ DUMMY_SPOTS ->
  let h := or_default (Some (remove_first 35 (js "#" ++ js "detail:" ++ s_id s)))
             (js "top") in
  Router.in_pages h = false
  /\ startsWith h (js "detail:") = true
  /\ or_default (split_at 58 h !! 1%nat) [] = s_id s.
Proof.
  intros Hs.
  repeat (apply elem_of_cons in Hs as [->|Hs]; [vm_compute; auto|]).
  by apply elem_of_nil in Hs.
Qed.

(** X5: The button of a result card leads to the detail of its spot: with
    [location.hash] set to the target of the card of a dataset spot, the
    router returns, shows the detail page alone, and the detail page holds
    that spot's title, region and description. *)
Theorem card_target_round_trip (s : Spot) (c : Card) (w : World) :
  s ∈ DUMMY_SPOTS ->
  make_card s = Some c ->
  location_hash w = js "#" ++ card_target c ->
  (forall sel, sel ∈ detail_required -> is_Some (dom w !! sel)) ->
  (forall sel, sel ∈ Router.pages.*2 -> is_Some (dom w !! sel)) ->
  exists w',
    Router.handleHashChange w = Ok tt w'
    /\ Router.visible_pages w' = [js "detail"]
    /\ content <$> dom w' !! "#detailTitle"%string = Some (Text (s_title s))
    /\ content <$> dom w' !! "#detailRegion"%string
       = Some (Text (js "地域：" ++ s_region s))
    /\ content <$> dom w' !! "#detailDesc"%string
       = Some (Text (s_desc s ++ js "（詳細ページサンプル）")).
Proof.
  intros Hs Hc Hhash Hreq Hpages.
  destruct (showDetail_hit s w Hs Hreq) as (w1 & Hrun & Ht & Hr & Hd & _).
  assert (Hroute : Router.handleHashChange w
                   = eff_bind (Detail.showDetail (s_id s))
                       (fun _ => Router.showPage (js "detail")) w).
  { assert (Htarget : card_target c = js "detail:" ++ s_id s).
    { unfold make_card in Hc.
      destruct (encodeURIComponent (s_color s)); [|discriminate].
      cbn [mbind option_bind] in Hc. injection Hc as <-. reflexivity. }
    destruct (card_hash_parsed s Hs) as (H1 & H2 & H3).
    apply route_detail; unfold Router.current_hash; rewrite Hhash, Htarget; assumption. }
  rewrite Hroute. unfold eff_bind. rewrite Hrun.
  pose proof (showDetail_untouched (s_id s) w w) as Hframe.
  rewrite Hrun in Hframe. simpl in Hframe.
  destruct Hframe as (_ & _ & Hdom); [by repeat split|].
  exists (final_state (Router.showPage (js "detail") w1)).
  split; [reflexivity|]. split.
  - rewrite showPage_visible. unfold Router.pages in *. cbn [omap list_omap].
    rewrite !Hdom by (unfold detail_selectors; intros Hin;
                      repeat (apply elem_of_cons in Hin as [Hin|Hin]; [discriminate|]);
                      by apply elem_of_nil in Hin).
    destruct (Hpages "#page-top"%string) as [e1 ->]; [repeat constructor|].
    destruct (Hpages "#page-results"%string) as [e2 ->]; [repeat constructor|].
    destruct (Hpages "#page-map"%string) as [e3 ->]; [repeat constructor|].
    destruct (Hpages "#page-detail"%string) as [e4 ->]; [repeat constructor|].
    vm_compute. reflexivity.
  - rewrite showPage_dom.
    repeat split; repeat rewrite lookup_alter_ne by done; assumption.
Qed.

Lemma card_target_round_trip_witness :
  exists w',
    Router.handleHashChange (sample_world "#detail:s2") = Ok tt w'
    /\ Router.visible_pages w' = [js "detail"]
    /\ content <$> dom w' !! "#detailTitle"%string = Some (Text (js "夏祭りの太鼓")).
Proof.
  destruct (make_card (spot_at 1)) as [c|] eqn:Hc; [|vm_compute in Hc; discriminate].
  destruct (card_target_round_trip (spot_at 1) c (sample_world "#detail:s2"))
    as (w' & Hrun & Hvis & Htitle & _).
  - vm_compute. repeat constructor.
  - exact Hc.
  - vm_compute in Hc. injection Hc as <-. vm_compute. reflexivity.
  - intros sel Hsel.
    repeat (apply elem_of_cons in Hsel as [->|Hsel]; [vm_compute; eauto|]).
    by apply elem_of_nil in Hsel.
  - intros sel Hsel.
    repeat (apply elem_of_cons in Hsel as [->|Hsel]; [vm_compute; eauto|]).
    by apply elem_of_nil in Hsel.
  - exists w'. repeat split; assumption.
Defined.

(** An id no spot has, in a document with the five required elements. *)
Lemma showDetail_miss (spotId : jsstr) (w : World) :
  List.find (fun s => str_eqb (s_id s) spotId) DUMMY_SPOTS = None ->
  (forall sel, sel ∈ detail_required -> is_Some (dom w !! sel)) ->
  exists w',
    Detail.showDetail spotId w = Ok tt w'
    /\ forall e, dom w' !! "#detailArArea"%string = Some e -> display e = js "none".
Proof.
  intros Hfind Hreq.
  destruct (Hreq "#detailTitle"%string) as [e1 H1]; [repeat constructor|].
  destruct (Hreq "#detailRegion"%string) as [e2 H2]; [repeat constructor|].
  destruct (Hreq "#detailDesc"%string) as [e3 H3]; [repeat constructor|].
  destruct (Hreq "#detailImage"%string) as [e4 H4]; [repeat constructor|].
  destruct (Hreq "#detailExtra"%string) as [e5 H5]; [repeat constructor|].
  detail_unfold. rewrite Hfind, H1, H2, H3, H4, H5.
  destruct (dom w !! "#detailArArea"%string) as [ar|] eqn:Har;
    cbn [bool_decide andb is_Some decide_rel]; simpl bool_decide;
    (eexists; split; [reflexivity|]);
    unfold with_dom; cbn [dom]; intros e; detail_lookups; rewrite ?Har.
  - intros [= <-]. reflexivity.
  - intros [=].
Qed.

(** X6: The AR area is displayed for the spot [s5] alone, and only when the
    page has the model viewer: for every id, known or not, in a document
    with the five required elements [showDetail] returns and leaves the AR
    area, if there is one, displayed as a block in that one case and not
    displayed in every other. *)
Theorem ar_area_only_for_s5 (spotId : jsstr) (w : World) :
  (forall sel, sel ∈ detail_required -> is_Some (dom w !! sel)) ->
  exists w',
    Detail.showDetail spotId w = Ok tt w'
    /\ forall e, dom w' !! "#detailArArea"%string = Some e ->
         display e =
           if str_eqb spotId (js "s5")
              && bool_decide (is_Some (dom w !! "#detailModelViewer"%string))
           then js "block" else js "none".
Proof.
  intros Hreq.
  destruct (List.find (fun s => str_eqb (s_id s) spotId) DUMMY_SPOTS) as [spot|] eqn:Hfind.
  - apply find_spot_some in Hfind as [Hs <-].
    destruct (Hreq "#detailTitle"%string) as [e1 H1]; [repeat constructor|].
    destruct (Hreq "#detailRegion"%string) as [e2 H2]; [repeat constructor|].
    destruct (Hreq "#detailDesc"%string) as [e3 H3]; [repeat constructor|].
    destruct (Hreq "#detailImage"%string) as [e4 H4]; [repeat constructor|].
    destruct (Hreq "#detailExtra"%string) as [e5 H5]; [repeat constructor|].
    destruct (dataset_fill spot Hs) as [fill Hfill].
    detail_unfold. rewrite (find_spot_own spot Hs), H1, H2, H3, H4, H5, Hfill.
    destruct (str_eqb (s_id spot) (js "s5"));
    destruct (dom w !! "#detailArArea"%string) as [ar|] eqn:Har;
    destruct (dom w !! "#detailModelViewer"%string) as [mv|] eqn:Hmv;
    destruct (dom w !! "#detailArBtn"%string) as [ab|] eqn:Hab;
    destruct (dom w !! "#mvArBtn"%string) as [mb|] eqn:Hmb;
    cbn [bool_decide andb is_Some decide_rel]; simpl bool_decide;
    (eexists; split; [reflexivity|]);
    unfold with_dom; cbn [dom]; intros e; detail_lookups; rewrite ?Har;
    intros [=]; subst; reflexivity.
  - destruct (showDetail_miss spotId w Hfind Hreq) as (w' & Hrun & Har).
    exists w'. split; [exact Hrun|]. intros e He.
    destruct (str_eqb spotId (js "s5")) eqn:E5.
    + apply bool_decide_eq_true_1 in E5. subst spotId.
      vm_compute in Hfind. discriminate.
    + by apply Har.
Qed.

Lemma ar_area_only_for_s5_witness :
  exists w',
    Detail.showDetail (js "s5") (sample_world "#detail:s5") = Ok tt w'
    /\ display <$> dom w' !! "#detailArArea"%string = Some (js "block").
Proof.
  destruct (ar_area_only_for_s5 (js "s5") (sample_world "#detail:s5")) as (w' & Hrun & Har).
  - intros sel Hsel.
    repeat (apply elem_of_cons in Hsel as [->|Hsel]; [vm_compute; eauto|]).
    by apply elem_of_nil in Hsel.
  - exists w'. split; [exact Hrun|].
    assert (Hw : w' = final_state (Detail.showDetail (js "s5") (sample_world "#detail:s5")))
      by (rewrite Hrun; reflexivity).
    rewrite Hw. vm_compute. reflexivity.
Defined.

(** With one of the five required elements missing, [showDetail] throws. *)
Lemma showDetail_throws (spotId : jsstr) (w : World) (sel : string) :
  sel ∈ detail_required -> dom w !! sel = None ->
  exists w', Detail.showDetail spotId w = Throw TypeError w'.
Proof.
  intros Hsel Hnone.
  assert (Hsome : ~ (is_Some (dom w !! "#detailTitle"%string)
                     /\ is_Some (dom w !! "#detailRegion"%string)
                     /\ is_Some (dom w !! "#detailDesc"%string)
                     /\ is_Some (dom w !! "#detailImage"%string)
                     /\ is_Some (dom w !! "#detailExtra"%string))).
  { intros (H1 & H2 & H3 & H4 & H5).
    repeat (apply elem_of_cons in Hsel as [->|Hsel];
            [rewrite Hnone in *; by apply is_Some_None in H1 || by apply is_Some_None in H2
             || by apply is_Some_None in H3 || by apply is_Some_None in H4
             || by apply is_Some_None in H5|]).
    by apply elem_of_nil in Hsel. }
  clear Hsel Hnone.
  detail_unfold.
  destruct (List.find _ DUMMY_SPOTS) as [spot|] eqn:Hfind.
  - apply find_spot_some in Hfind as [Hs _].
    destruct (dataset_fill spot Hs) as [fill ->].
    destruct (dom w !! "#detailTitle"%string); [|eexists; reflexivity].
    destruct (dom w !! "#detailRegion"%string); [|eexists; reflexivity].
    destruct (dom w !! "#detailDesc"%string); [|eexists; reflexivity].
    destruct (dom w !! "#detailImage"%string); [|eexists; reflexivity].
    destruct (dom w !! "#detailExtra"%string); [|eexists; reflexivity].
    exfalso. apply Hsome. repeat split; eauto.
  - destruct (dom w !! "#detailTitle"%string); [|eexists; reflexivity].
    destruct (dom w !! "#detailRegion"%string); [|eexists; reflexivity].
    destruct (dom w !! "#detailDesc"%string); [|eexists; reflexivity].
    destruct (dom w !! "#detailImage"%string); [|eexists; reflexivity].
    destruct (dom w !! "#detailExtra"%string); [|eexists; reflexivity].
    exfalso. apply Hsome. repeat split; eauto.
Qed.

(** X7: [showDetail] returns exactly when the document has the five elements it
    writes unguarded, whatever the id; when one is missing it throws a
    [TypeError]. *)
Theorem showDetail_returns_iff (spotId : jsstr) (w : World) :
  (returns (Detail.showDetail spotId w) = true
   <-> forall sel, sel ∈ detail_required -> is_Some (dom w !! sel))
  /\ (returns (Detail.showDetail spotId w) = false ->
      exists w', Detail.showDetail spotId w = Throw TypeError w').
Proof.
  assert (Hthrow : (exists sel, sel ∈ detail_required /\ dom w !! sel = None) ->
                   exists w', Detail.showDetail spotId w = Throw TypeError w').
  { intros (sel & Hsel & Hnone). by eapply showDetail_throws. }
  assert (Hok : (forall sel, sel ∈ detail_required -> is_Some (dom w !! sel)) ->
                returns (Detail.showDetail spotId w) = true).
  { intros Hreq.
    destruct (List.find (fun s => str_eqb (s_id s) spotId) DUMMY_SPOTS) as [spot|] eqn:Hfind.
    - apply find_spot_some in Hfind as [Hs <-].
      destruct (showDetail_hit spot w Hs Hreq) as (w' & -> & _). reflexivity.
    - destruct (showDetail_miss spotId w Hfind Hreq) as (w' & -> & _). reflexivity. }
  assert (Hdec : (forall sel, sel ∈ detail_required -> is_Some (dom w !! sel))
                 \/ exists sel, sel ∈ detail_required /\ dom w !! sel = None).
  { destruct (decide (Forall (fun sel => is_Some (dom w !! sel)) detail_required))
      as [Hall|Hex].
    - left. by apply Forall_forall.
    - right. apply not_Forall_Exists in Hex; [|apply _].
      apply Exists_exists in Hex as (sel & Hsel & Hno).
      exists sel. split; [exact Hsel|]. by apply eq_None_not_Some. }
  split; [split|].
  - intros Hret. destruct Hdec as [Hall|Hex]; [exact Hall|].
    destruct (Hthrow Hex) as [w' Hw']. rewrite Hw' in Hret. discriminate.
  - exact Hok.
  - intros Hret. destruct Hdec as [Hall|Hex]; [|by apply Hthrow].
    rewrite (Hok Hall) in Hret. discriminate.
Qed.

Lemma split_at_no_sep (c : N) (s : jsstr) : c ∉ s -> split_at c s = [s].
Proof.
  induction s as [|d s IH]; intros Hc; simpl; [reflexivity|].
  destruct (N.eqb_spec d c) as [->|Hne].
  - exfalso. apply Hc. constructor.
  - rewrite IH; [reflexivity|]. intros Hin. apply Hc. by constructor.
Qed.

(** A hash [#detail:<id>] with no further colon, as the router reads it. *)
Lemma detail_hash_parsed (id : jsstr) :
  58%N ∉ id ->
  let h := or_default (Some (remove_first 35 (js "#detail:" ++ id))) (js "top") in
  Router.in_pages h = false
  /\ startsWith h (js "detail:") = true
  /\ or_default (split_at 58 h !! 1%nat) [] = id.
Proof.
  intros Hid.
  assert (Hh : or_default (Some (remove_first 35 (js "#detail:" ++ id))) (js "top")
               = [100; 101; 116; 97; 105; 108; 58]%N ++ id) by reflexivity.
  cbv zeta. rewrite Hh. split; [|split].
  - unfold Router.in_pages. apply orb_false_iff. split; apply bool_decide_eq_false_2.
    + intros Hin. vm_compute in Hin.
      repeat (apply elem_of_cons in Hin as [Hin|Hin]; [discriminate|]).
      by apply elem_of_nil in Hin.
    + intros Hin. vm_compute in Hin.
      repeat (apply elem_of_cons in Hin as [Hin|Hin]; [discriminate|]).
      by apply elem_of_nil in Hin.
  - vm_compute. by destruct id.
  - cbn [app split_at N.eqb Pos.eqb]. rewrite (split_at_no_sep 58 id Hid).
    cbn [lookup list_lookup]. by destruct id.
Qed.

(** X8: A detail token in a document whose detail page lacks one of the five
    required elements: the router throws a [TypeError] out of [showDetail],
    [showPage('detail')] is not reached, and the page that was visible stays
    the visible one. *)
Theorem detail_token_missing_element (id : jsstr) (w : World) (sel : string) :
  location_hash w = js "#detail:" ++ id ->
  58%N ∉ id ->
  sel ∈ detail_required -> dom w !! sel = None ->
  exists w',
    Router.handleHashChange w = Throw TypeError w'
    /\ Router.visible_pages w' = Router.visible_pages w.
Proof.
  intros Hhash Hid Hsel Hnone.
  destruct (detail_hash_parsed id Hid) as (H1 & H2 & H3).
  rewrite (route_detail w id) by (unfold Router.current_hash; rewrite Hhash; assumption).
  destruct (showDetail_throws id w sel Hsel Hnone) as [w' Hw'].
  exists w'. unfold eff_bind. rewrite Hw'. split; [reflexivity|].
  apply untouched_visible.
  pose proof (showDetail_untouched id w w) as Hframe. rewrite Hw' in Hframe.
  apply Hframe. by repeat split.
Qed.

Lemma detail_token_missing_element_witness :
  exists w',
    Router.handleHashChange (broken_detail_world "#detail:s1") = Throw TypeError w'
    /\ Router.visible_pages w' = Router.visible_pages (broken_detail_world "#detail:s1").
Proof.
  apply (detail_token_missing_element (js "s1") (broken_detail_world "#detail:s1")
           "#detailImage"%string).
  - vm_compute. reflexivity.
  - vm_compute. intros Hin.
    repeat (apply elem_of_cons in Hin as [Hin|Hin]; [discriminate|]).
    by apply elem_of_nil in Hin.
  - unfold detail_required. repeat constructor.
  - vm_compute. reflexivity.
Defined.

(** ** Carousel: stepping, bounds and start-up *)

Section CarouselFrames.

Import Carousel.

(** A property of the carousel state that the assignments named in the
    hypotheses keep is kept by the functions built from them. *)
Variable P : State -> Prop.

Hypothesis P_track : forall s f, P s -> P (with_track f s).
Hypothesis P_dots : forall s d, P s -> P (with_dots d s).
Hypothesis P_width : forall s w, P s -> P (with_offsetWidth w s).
Hypothesis P_pointer : forall s down x, P s -> P (with_pointer down x s).
Hypothesis P_timers : forall s i n, P s -> P (with_timers i n s).
Hypothesis P_timer : forall s t, P s -> P (with_autoplayTimer t s).
Hypothesis P_listeners : forall s p n r, P s -> P (with_listeners p n r s).
Hypothesis P_goToSlide : forall index, preserves P (goToSlide index).

Lemma assign_track_frame f : preserves P (assign_track f).
Proof.
  intros s Hs. unfold assign_track. destruct (track s); simpl; [|exact Hs].
  by apply P_track.
Qed.

Lemma createDots_frame : preserves P createDots.
Proof.
  intros s Hs. unfold createDots. destruct (dots s); simpl; [|exact Hs].
  by apply P_dots.
Qed.

Lemma prevSlide_frame : preserves P prevSlide.
Proof.
  unfold prevSlide. apply preserves_bind; [apply preserves_gets|]. intros i.
  apply P_goToSlide.
Qed.

Lemma nextSlide_frame : preserves P nextSlide.
Proof.
  unfold nextSlide. apply preserves_bind; [apply preserves_gets|]. intros i.
  apply P_goToSlide.
Qed.

Lemma stopAutoplay_frame : preserves P stopAutoplay.
Proof.
  intros s Hs. unfold stopAutoplay, eff_bind, gets, clearInterval, modify.
  destruct (autoplayTimer s); simpl; [|exact Hs].
  by apply P_timer, P_timers.
Qed.

Lemma startAutoplay_frame : preserves P startAutoplay.
Proof.
  unfold startAutoplay.
  apply preserves_bind; [apply stopAutoplay_frame|]. intros _.
  apply preserves_bind.
  - intros s Hs. unfold setInterval. simpl. by apply P_timers.
  - intros h. apply preserves_modify. intros s Hs. by apply P_timer.
Qed.

Ltac frame_step :=
  match goal with
  | |- preserves _ (eff_bind _ _) => apply preserves_bind; [|intros ?]
  | |- preserves _ (if _ then _ else _) => apply preserves_if
  | |- preserves _ (eff_ret _) => apply preserves_ret
  | |- preserves _ (throw _) => apply preserves_throw
  | |- preserves _ (gets _) => apply preserves_gets
  | |- preserves _ (goToSlide _) => apply P_goToSlide
  | |- preserves _ prevSlide => apply prevSlide_frame
  | |- preserves _ nextSlide => apply nextSlide_frame
  | |- preserves _ stopAutoplay => apply stopAutoplay_frame
  | |- preserves _ startAutoplay => apply startAutoplay_frame
  | |- preserves _ createDots => apply createDots_frame
  | |- preserves _ (assign_track _) => apply assign_track_frame
  | |- preserves _ (modify _) =>
    apply preserves_modify; intros ? ?;
    first [by apply P_pointer | by apply P_width | by apply P_listeners
          | by apply P_timer | by apply P_track ]
  end.

Lemma endSwipe_frame x : preserves P (endSwipe x).
Proof. unfold endSwipe. repeat frame_step. Qed.

Lemma initCarousel_frame : preserves P initCarousel.
Proof. unfold initCarousel, listen. repeat frame_step. Qed.

Lemma handle_frame e : preserves P (handle e).
Proof.
  destruct e; cbn [handle]; try apply endSwipe_frame; repeat frame_step.
Qed.

Lemma run_frame es s : P s -> P (run es s).
Proof.
  intros Hs. unfold run.
  assert (H0 : P (final_state (initCarousel s))) by by apply initCarousel_frame.
  revert H0. generalize (final_state (initCarousel s)).
  induction es as [|e es IH]; intros s' Hs'; simpl; [exact Hs'|].
  by apply IH, handle_frame.
Qed.

End CarouselFrames.

Section CarouselSteps.

Import Carousel.

Lemma goToSlide_index_ok (n : nat) (index : Z) :
  (0 < n)%nat ->
  preserves (index_ok n) (goToSlide index).
Proof.
  intros Hn s [Hlen Hi]. split.
  - rewrite goToSlide_slides_length. exact Hlen.
  - rewrite goToSlide_currentIndex, Hlen. cbv zeta.
    destruct (Z.ltb_spec index 0).
    + destruct (Z.geb_spec (Z.of_nat n - 1) (Z.of_nat n)); lia.
    + destruct (Z.geb_spec index (Z.of_nat n)); lia.
Qed.

Lemma run_index_ok (n : nat) (es : list Event) (s : State) :
  (0 < n)%nat -> index_ok n s -> index_ok n (run es s).
Proof.
  intros Hn. apply run_frame; try (intros; assumption).
  intros index. by apply goToSlide_index_ok.
Qed.

Lemma nextSlide_final (s : State) :
  final_state (nextSlide s) = final_state (goToSlide (currentIndex s + 1) s).
Proof. reflexivity. Qed.

Lemma prevSlide_final (s : State) :
  final_state (prevSlide s) = final_state (goToSlide (currentIndex s - 1) s).
Proof. reflexivity. Qed.

Lemma nextSlide_index (n : nat) (s : State) :
  (0 < n)%nat -> index_ok n s ->
  currentIndex (final_state (nextSlide s)) = (currentIndex s + 1) mod Z.of_nat n.
Proof.
  intros Hn [Hlen Hi]. rewrite nextSlide_final, goToSlide_currentIndex, Hlen. cbv zeta.
  destruct (Z.ltb_spec (currentIndex s + 1) 0); [lia|].
  destruct (Z.geb_spec (currentIndex s + 1) (Z.of_nat n)).
  - replace (currentIndex s + 1) with (Z.of_nat n) by lia.
    symmetry. apply Z.mod_same. lia.
  - symmetry. apply Z.mod_small. lia.
Qed.

Lemma prevSlide_index (n : nat) (s : State) :
  (0 < n)%nat -> index_ok n s ->
  currentIndex (final_state (prevSlide s)) = (currentIndex s - 1) mod Z.of_nat n.
Proof.
  intros Hn [Hlen Hi]. rewrite prevSlide_final, goToSlide_currentIndex, Hlen. cbv zeta.
  destruct (Z.ltb_spec (currentIndex s - 1) 0).
  - destruct (Z.geb_spec (Z.of_nat n - 1) (Z.of_nat n)); [lia|].
    replace (currentIndex s - 1) with (-1) by lia.
    apply Z.mod_unique with (q := -1); lia.
  - destruct (Z.geb_spec (currentIndex s - 1) (Z.of_nat n)); [lia|].
    symmetry. apply Z.mod_small. lia.
Qed.

Lemma nextSlide_index_ok (n : nat) (s : State) :
  (0 < n)%nat -> index_ok n s -> index_ok n (final_state (nextSlide s)).
Proof. intros Hn Hs. rewrite nextSlide_final. by apply goToSlide_index_ok. Qed.

Lemma prevSlide_index_ok (n : nat) (s : State) :
  (0 < n)%nat -> index_ok n s -> index_ok n (final_state (prevSlide s)).
Proof. intros Hn Hs. rewrite prevSlide_final. by apply goToSlide_index_ok. Qed.

Lemma nextSlide_iter (n : nat) (k : nat) (s : State) :
  (0 < n)%nat -> index_ok n s ->
  index_ok n (Nat.iter k (fun s => final_state (nextSlide s)) s)
  /\ currentIndex (Nat.iter k (fun s => final_state (nextSlide s)) s)
     = (currentIndex s + Z.of_nat k) mod Z.of_nat n.
Proof.
  intros Hn Hs. induction k as [|k [IHok IHi]].
  - split; [exact Hs|]. simpl. rewrite Z.add_0_r. symmetry. apply Z.mod_small.
    destruct Hs as [Hlen Hi]. lia.
  - change (Nat.iter (S k) (fun s => final_state (nextSlide s)) s)
      with (final_state (nextSlide (Nat.iter k (fun s => final_state (nextSlide s)) s))).
    split; [by apply nextSlide_index_ok|].
    rewrite (nextSlide_index n) by assumption. rewrite IHi.
    rewrite Zplus_mod_idemp_l. f_equal. lia.
Qed.

End CarouselSteps.

(** X9: From a slide in range, [nextSlide] commits the next index modulo the
    slide count and [prevSlide] the previous one: the last slide is followed
    by the first and the first preceded by the last. *)
Theorem slide_step_wraps (n : nat) (s : Carousel.State) :
  (0 < n)%nat -> index_ok n s ->
  Carousel.currentIndex (final_state (Carousel.nextSlide s))
    = (Carousel.currentIndex s + 1) mod Z.of_nat n
  /\ Carousel.currentIndex (final_state (Carousel.prevSlide s))
    = (Carousel.currentIndex s - 1) mod Z.of_nat n.
Proof. intros Hn Hs. split; [by apply nextSlide_index|by apply prevSlide_index]. Qed.

Lemma slide_step_wraps_witness :
  Carousel.currentIndex (final_state (Carousel.nextSlide five_slides)) = (0 + 1) mod 5
  /\ Carousel.currentIndex (final_state (Carousel.prevSlide five_slides)) = (0 - 1) mod 5.
Proof.
  apply (slide_step_wraps 5 five_slides).
  - lia.
  - split; [reflexivity|]. vm_compute. split; congruence.
Defined.

(** X10: [prevSlide] undoes [nextSlide] and [nextSlide] undoes [prevSlide]: from
    a slide in range either pair of calls commits the index it started
    from, also when a call throws after its assignment. *)
Theorem prev_next_round_trip (n : nat) (s : Carousel.State) :
  (0 < n)%nat -> index_ok n s ->
  Carousel.currentIndex
    (final_state (Carousel.prevSlide (final_state (Carousel.nextSlide s))))
    = Carousel.currentIndex s
  /\ Carousel.currentIndex
       (final_state (Carousel.nextSlide (final_state (Carousel.prevSlide s))))
     = Carousel.currentIndex s.
Proof.
  intros Hn Hs. pose proof Hs as [Hlen Hi].
  assert (Hmod : forall a, (a mod Z.of_nat n + 0) mod Z.of_nat n = a mod Z.of_nat n).
  { intros a. rewrite Z.add_0_r. apply Z.mod_mod. lia. }
  split.
  - rewrite (prevSlide_index n) by (try apply nextSlide_index_ok; assumption).
    rewrite (nextSlide_index n) by assumption.
    rewrite Zminus_mod_idemp_l.
    replace (Carousel.currentIndex s + 1 - 1) with (Carousel.currentIndex s) by lia.
    apply Z.mod_small. lia.
  - rewrite (nextSlide_index n) by (try apply prevSlide_index_ok; assumption).
    rewrite (prevSlide_index n) by assumption.
    rewrite Zplus_mod_idemp_l.
    replace (Carousel.currentIndex s - 1 + 1) with (Carousel.currentIndex s) by lia.
    apply Z.mod_small. lia.
Qed.

Lemma prev_next_round_trip_witness :
  Carousel.currentIndex
    (final_state (Carousel.prevSlide (final_state (Carousel.nextSlide five_slides))))
    = Carousel.currentIndex five_slides
  /\ Carousel.currentIndex
       (final_state (Carousel.nextSlide (final_state (Carousel.prevSlide five_slides))))
     = Carousel.currentIndex five_slides.
Proof.
  apply (prev_next_round_trip 5 five_slides).
  - lia.
  - split; [reflexivity|]. vm_compute. split; congruence.
Defined.

(** X11: As many calls of [nextSlide] as there are slides lead back to the slide
    the carousel started from; [k] calls advance by [k] modulo the count. *)
Theorem nextSlide_full_cycle (n k : nat) (s : Carousel.State) :
  (0 < n)%nat -> index_ok n s ->
  Carousel.currentIndex (Nat.iter k (fun s => final_state (Carousel.nextSlide s)) s)
    = (Carousel.currentIndex s + Z.of_nat k) mod Z.of_nat n
  /\ Carousel.currentIndex (Nat.iter n (fun s => final_state (Carousel.nextSlide s)) s)
    = Carousel.currentIndex s.
Proof.
  intros Hn Hs. pose proof Hs as [Hlen Hi].
  split; [by apply nextSlide_iter|].
  destruct (nextSlide_iter n n s Hn Hs) as [_ ->].
  rewrite <- (Z.mul_1_l (Z.of_nat n)) at 1. rewrite Z.mod_add by lia.
  apply Z.mod_small. lia.
Qed.

Lemma nextSlide_full_cycle_witness :
  Carousel.currentIndex (Nat.iter 7 (fun s => final_state (Carousel.nextSlide s)) five_slides)
    = (0 + 7) mod 5
  /\ Carousel.currentIndex (Nat.iter 5 (fun s => final_state (Carousel.nextSlide s)) five_slides)
    = Carousel.currentIndex five_slides.
Proof.
  apply (nextSlide_full_cycle 5 7 five_slides).
  - lia.
  - split; [reflexivity|]. vm_compute. split; congruence.
Defined.

(** X12: With at least one slide, [currentIndex] is an index of a slide in every
    state the carousel reaches from load, whatever events arrive and
    whichever handlers throw. *)
Theorem carousel_index_always_in_range
    (n : nat) (w : Z) (tr : option Carousel.Track) (d : option (list bool))
    (prev next : bool) (es : list Carousel.Event) :
  (0 < n)%nat ->
  0 <= Carousel.currentIndex (Carousel.run es (Carousel.loaded n w tr d prev next))
    < Z.of_nat (Carousel.slides_length
                  (Carousel.run es (Carousel.loaded n w tr d prev next))).
Proof.
  intros Hn.
  destruct (run_index_ok n es (Carousel.loaded n w tr d prev next) Hn) as [Hlen Hi].
  - split; [reflexivity|]. simpl. lia.
  - rewrite Hlen. exact Hi.
Qed.

Lemma carousel_index_always_in_range_witness :
  0 <= Carousel.currentIndex
         (Carousel.run [Carousel.ClickPrev; Carousel.Tick 2; Carousel.ClickDot 9]
            five_slides) < 5.
Proof.
  apply (carousel_index_always_in_range 5 300 (Some sample_track)
           (Some (replicate 5 false)) true true
           [Carousel.ClickPrev; Carousel.Tick 2; Carousel.ClickDot 9]).
  lia.
Defined.

(** [goToSlide] returns exactly when the track and the dot container exist;
    otherwise it throws a [TypeError], the index being committed already. *)
Theorem goToSlide_returns_iff (index : Z) (s : Carousel.State) :
  (returns (Carousel.goToSlide index s) = true
   <-> is_Some (Carousel.track s) /\ is_Some (Carousel.dots s))
  /\ (returns (Carousel.goToSlide index s) = false ->
      exists s', Carousel.goToSlide index s = Throw TypeError s').
Proof.
  unfold Carousel.goToSlide, eff_bind, gets, modify, Carousel.assign_track,
    Carousel.each_dot; simpl.
  destruct (Carousel.track s) as [tr|]; simpl; [destruct (Carousel.dots s) as [d|]; simpl|].
  - split; [|discriminate]. split; [eauto|reflexivity].
  - split; [|eauto]. split; [discriminate|]. intros [_ [? [=]]].
  - split; [|eauto]. split; [discriminate|]. intros [[? [=]] _].
Qed.

(** X13: When [goToSlide] returns, the track is moved by the committed index
    times the carousel width, its transition is left alone, and of the dots
    exactly the one at the committed index is active. *)
Theorem goToSlide_shows_slide (index : Z) (s : Carousel.State)
    (tr : Carousel.Track) (d : list bool) :
  Carousel.track s = Some tr -> Carousel.dots s = Some d ->
  exists s' d',
    Carousel.goToSlide index s = Ok tt s'
    /\ Carousel.track s'
       = Some {| Carousel.transition := Carousel.transition tr;
                 Carousel.translateX :=
                   - Carousel.currentIndex s' * Carousel.offsetWidth s |}
    /\ Carousel.dots s' = Some d'
    /\ length d' = length d
    /\ forall j b, d' !! j = Some b ->
         (b = true <-> Z.of_nat j = Carousel.currentIndex s').
Proof.
  intros Htr Hd.
  unfold Carousel.goToSlide, eff_bind, gets, modify, Carousel.assign_track,
    Carousel.each_dot; simpl.
  rewrite Htr. simpl. rewrite Hd. simpl.
  do 2 eexists. split; [reflexivity|]. simpl. rewrite Htr. simpl.
  split; [reflexivity|]. split; [reflexivity|]. split; [apply length_imap|].
  intros j b. rewrite list_lookup_imap.
  destruct (d !! j); simpl; [|discriminate].
  intros [= <-]. apply bool_decide_eq_true.
Qed.

Lemma goToSlide_shows_slide_witness :
  exists s' d',
    Carousel.goToSlide 7 five_slides = Ok tt s'
    /\ Carousel.dots s' = Some d'
    /\ d' = [true; false; false; false; false].
Proof.
  destruct (goToSlide_shows_slide 7 five_slides sample_track (replicate 5 false))
    as (s' & d' & Hrun & _ & Hd & _).
  - reflexivity.
  - reflexivity.
  - exists s', d'. split; [exact Hrun|]. split; [exact Hd|].
    assert (Hs : s' = final_state (Carousel.goToSlide 7 five_slides))
      by (rewrite Hrun; reflexivity).
    rewrite Hs in Hd. vm_compute in Hd. by injection Hd as <-.
Defined.

Section GestureFacts.

Import Carousel.

Lemma each_dot_pointer f :
  preserves (fun s => pointerDown s = false) (each_dot f).
Proof. intros s Hs. unfold each_dot. destruct (dots s); exact Hs. Qed.

Lemma goToSlide_pointer index :
  preserves (fun s => pointerDown s = false) (goToSlide index).
Proof.
  unfold goToSlide.
  repeat match goal with
         | |- preserves _ (eff_bind _ _) => apply preserves_bind; [|intros ?]
         | |- preserves _ (gets _) => apply preserves_gets
         | |- preserves _ (each_dot _) => apply each_dot_pointer
         | |- preserves _ (assign_track _) =>
           apply assign_track_frame; intros ? ? H; exact H
         | |- preserves _ (modify _) => apply preserves_modify; intros ? H; exact H
         end.
Qed.

Lemma endSwipe_pointer (x : Z) (s : State) :
  pointerDown (final_state (endSwipe x s)) = false.
Proof.
  unfold endSwipe, eff_bind at 1, gets at 1.
  destruct (pointerDown s) eqn:Hdown; cbn [negb]; [|exact Hdown].
  unfold eff_bind at 1 2, gets at 1, modify at 1.
  match goal with
  | |- pointerDown (final_state (?m ?s0)) = false =>
    assert (Hm : preserves (fun s => pointerDown s = false) m); [|exact (Hm s0 eq_refl)]
  end.
  assert (Hstart : preserves (fun s => pointerDown s = false) startAutoplay).
  { apply startAutoplay_frame; intros; assumption. }
  repeat match goal with
         | |- preserves _ (eff_bind _ _) => apply preserves_bind; [|intros ?]
         | |- preserves _ (if _ then _ else _) => apply preserves_if
         | |- preserves _ (gets _) => apply preserves_gets
         | |- preserves _ startAutoplay => exact Hstart
         | |- preserves _ prevSlide =>
           apply prevSlide_frame; apply goToSlide_pointer
         | |- preserves _ nextSlide =>
           apply nextSlide_frame; apply goToSlide_pointer
         | |- preserves _ (goToSlide _) => apply goToSlide_pointer
         | |- preserves _ (assign_track _) =>
           apply assign_track_frame; intros ? ? H; exact H
         end.
Qed.

End GestureFacts.

(** X14: The end of a gesture always clears the dragging state: after
    [endSwipe], returning or throwing, [pointerDown] is false; and when no
    gesture is in progress [endSwipe] does nothing at all. *)
Theorem endSwipe_clears_pointer (x : Z) (s : Carousel.State) :
  Carousel.pointerDown (final_state (Carousel.endSwipe x s)) = false
  /\ (Carousel.pointerDown s = false -> Carousel.endSwipe x s = Ok tt s).
Proof.
  split; [apply endSwipe_pointer|].
  intros Hdown. unfold Carousel.endSwipe, eff_bind, gets. rewrite Hdown. reflexivity.
Qed.

(** X15: Pressing the pointer on the carousel, or moving the mouse over it once
    the listeners are added, pauses autoplay: in every state reached from
    load no interval timer is left set after the handler, and
    [autoplayTimer] is [null]. *)
Theorem pause_stops_timer
    (n : nat) (w : Z) (tr : option Carousel.Track) (d : option (list bool))
    (prev next : bool) (es : list Carousel.Event) (x : Z) :
  let s := Carousel.run es (Carousel.loaded n w tr d prev next) in
  let pressed := final_state (Carousel.handle (Carousel.PointerDownEv x) s) in
  let hovered := final_state (Carousel.handle Carousel.MouseEnter s) in
  (Carousel.intervals pressed = ∅ /\ Carousel.autoplayTimer pressed = None
   /\ Carousel.pointerDown pressed = true)
  /\ (Carousel.on_rest s = true ->
      Carousel.intervals hovered = ∅ /\ Carousel.autoplayTimer hovered = None).
Proof.
  intros s pressed hovered.
  destruct (run_timers_ok es n w tr d prev next) as [Hi _]. fold s in Hi.
  split.
  - assert (Hpress : Carousel.handle (Carousel.PointerDownEv x) s
                     = Carousel.stopAutoplay (Carousel.with_pointer true x s))
      by reflexivity.
    subst pressed. rewrite Hpress.
    assert (Hp : Carousel.pointerDown
                   (final_state (Carousel.stopAutoplay (Carousel.with_pointer true x s)))
                 = true).
    { apply (stopAutoplay_frame (fun s => Carousel.pointerDown s = true));
        [intros; assumption..|reflexivity]. }
    destruct (stopAutoplay_run (Carousel.with_pointer true x s))
      as (s' & Hrun & Hi' & Ht' & Hn').
    rewrite Hrun in Hp. simpl in Hp, Hi'.
    rewrite Hrun. cbn [final_state].
    split; [|split; [exact Ht'|exact Hp]].
    rewrite Hi', Hi. apply difference_diag_L.
  - intros Hon.
    assert (Hhover : Carousel.handle Carousel.MouseEnter s = Carousel.stopAutoplay s).
    { cbn [Carousel.handle]. unfold eff_bind, gets at 1. rewrite Hon. reflexivity. }
    subst hovered. rewrite Hhover.
    destruct (stopAutoplay_run s) as (s' & -> & Hi' & Ht' & _). cbn [final_state].
    split; [|exact Ht']. rewrite Hi', Hi. apply difference_diag_L.
Qed.

(** X16: How [initCarousel] ends on the freshly loaded page.  It returns exactly
    when the track, the dot container and both buttons exist.  Without the
    dot container it throws at once and nothing is started; without the
    track it throws before autoplay starts; without a button it throws after
    autoplay has started, so the timer runs although the listeners of the
    missing button and everything added after it (hover, resize) are absent.
    The slide shown is the first in every case. *)
Theorem initCarousel_outcomes
    (n : nat) (w : Z) (tr : option Carousel.Track) (d : option (list bool))
    (prev next : bool) :
  let s0 := Carousel.loaded n w tr d prev next in
  let s1 := final_state (Carousel.initCarousel s0) in
  let drawn := bool_decide (is_Some tr) && bool_decide (is_Some d) in
  (returns (Carousel.initCarousel s0) = true
   <-> is_Some tr /\ is_Some d /\ prev = true /\ next = true)
  /\ Carousel.currentIndex s1 = 0
  /\ Carousel.intervals s1 = (if drawn then {[1%positive]} else ∅)
  /\ Carousel.autoplayTimer s1 = (if drawn then Some 1%positive else None)
  /\ Carousel.on_prev s1 = drawn && prev
  /\ Carousel.on_next s1 = drawn && prev && next
  /\ Carousel.on_rest s1 = drawn && prev && next
  /\ (d = None -> Carousel.initCarousel s0 = Throw TypeError s0).
Proof.
  intros s0 s1 drawn. subst s0 s1 drawn.
  unfold Carousel.initCarousel, Carousel.listen, Carousel.createDots, Carousel.goToSlide,
    Carousel.startAutoplay, Carousel.stopAutoplay, Carousel.setInterval,
    Carousel.assign_track, Carousel.each_dot, eff_bind, gets, modify, throw,
    Carousel.loaded.
  destruct d as [d|], tr as [tr|]; cbn -[Z.of_nat Z.geb union singleton];
    destruct (0 >=? Z.of_nat n); cbn -[union singleton];
    try (destruct prev; cbn -[union singleton]);
    try (destruct next; cbn -[union singleton]);
    rewrite ?union_empty_r_L;
    repeat split; try reflexivity; try discriminate; eauto;
    try (intros (H1 & H2 & H3 & H4);
         first [discriminate | by apply is_Some_None in H1 | by apply is_Some_None in H2]).
Qed.

(** ** Result page: the matching rule, the summary and repeated searches *)

Lemma filter_filter {A} (f g : A -> bool) (l : list A) :
  List.filter f (List.filter g l) = List.filter (fun x => g x && f x) l.
Proof.
  induction l as [|a l IH]; simpl; [reflexivity|].
  destruct (g a); simpl; [destruct (f a)|]; rewrite ?IH; reflexivity.
Qed.

Lemma filter_true {A} (l : list A) : List.filter (fun _ => true) l = l.
Proof. induction l as [|a l IH]; simpl; [reflexivity|]. by rewrite IH. Qed.

Lemma filter_ext_eq {A} (f g : A -> bool) (l : list A) :
  (forall x, f x = g x) -> List.filter f l = List.filter g l.
Proof. intros H. induction l as [|a l IH]; simpl; [reflexivity|]. by rewrite H, IH. Qed.

Lemma filter_sublist_mono {A} (f g : A -> bool) (l : list A) :
  (forall x, f x = true -> g x = true) ->
  List.filter f l `sublist_of` List.filter g l.
Proof.
  intros H. induction l as [|a l IH]; simpl; [constructor|].
  destruct (f a) eqn:Hf.
  - rewrite (H a Hf). by constructor.
  - destruct (g a); [by constructor|exact IH].
Qed.

Lemma filtered_as_filter (toLowerCase : jsstr -> jsstr) (kw pref city : jsstr)
    (cats : list jsstr) :
  Results.filtered toLowerCase kw pref city cats
  = List.filter (matches toLowerCase kw pref city cats) DUMMY_SPOTS.
Proof.
  unfold Results.filtered. cbv zeta.
  generalize DUMMY_SPOTS. intros l.
  destruct (nonempty kw) eqn:Hk, (nonempty pref) eqn:Hp, (nonempty city) eqn:Hc,
    cats as [|c cats];
    cbn [bool_decide decide_rel]; simpl bool_decide;
    rewrite ?filter_filter;
    first [ apply filter_ext_eq
          | etransitivity; [symmetry; apply filter_true|apply filter_ext_eq] ];
    intros x; unfold matches; rewrite Hk, Hp, Hc; simpl;
    repeat match goal with
           | |- context [includes ?a ?b] => destruct (includes a b)
           | |- context [startsWith ?a ?b] => destruct (startsWith a b)
           | |- context [bool_decide ?P] => destruct (bool_decide P)
           end; reflexivity.
Qed.

(** X17: The four filters in sequence are one conjunctive rule: a spot is in the
    result exactly when it is in the dataset and passes every criterion
    that is not empty. *)
Theorem filtered_matches_exactly (toLowerCase : jsstr -> jsstr)
    (kw pref city : jsstr) (cats : list jsstr) (s : Spot) :
  s ∈ Results.filtered toLowerCase kw pref city cats
  <-> s ∈ DUMMY_SPOTS
      /\ (kw <> [] ->
          includes (toLowerCase (s_title s)) (toLowerCase kw) = true
          \/ includes (toLowerCase (s_desc s)) (toLowerCase kw) = true
          \/ includes (toLowerCase (s_region s)) (toLowerCase kw) = true)
      /\ (pref <> [] -> startsWith (s_region s) pref = true)
      /\ (city <> [] -> includes (s_region s) (js "/" ++ city) = true)
      /\ (cats <> [] -> s_category s ∈ cats).
Proof.
  rewrite filtered_as_filter, !list_elem_of_In, filter_In. unfold matches.
  rewrite !andb_true_iff, !orb_true_iff, !negb_true_iff, !bool_decide_eq_true.
  assert (Hne : forall x : jsstr, nonempty x = false <-> x = []).
  { intros [|c x]; simpl; split; intros H; congruence. }
  rewrite !Hne, <- !list_elem_of_In.
  split.
  - intros (Hs & ((Hk & Hp) & Hc) & Hcat). split; [exact Hs|].
    clear Hne. tauto.
  - intros (Hs & Hk & Hp & Hc & Hcat). split; [exact Hs|].
    repeat split.
    + destruct kw as [|c kw]; [auto|].
      destruct Hk as [Hk|[Hk|Hk]]; [discriminate|auto..].
    + destruct pref as [|c pref]; [auto|]. right. apply Hp. discriminate.
    + destruct city as [|c city]; [auto|]. right. apply Hc. discriminate.
    + destruct cats as [|c cats]; [auto|]. right. apply Hcat. discriminate.
Qed.

(** X18: Criteria only narrow: the result for given criteria is a subsequence of
    the result for the same criteria with any of them left empty. *)
Theorem dropping_criteria_widens (toLowerCase : jsstr -> jsstr)
    (kw pref city : jsstr) (cats : list jsstr) (keep_kw keep_pref keep_city keep_cats : bool) :
  Results.filtered toLowerCase kw pref city cats
  `sublist_of`
  Results.filtered toLowerCase
    (if keep_kw then kw else []) (if keep_pref then pref else [])
    (if keep_city then city else []) (if keep_cats then cats else []).
Proof.
  rewrite !filtered_as_filter. apply filter_sublist_mono. intros s.
  unfold matches. rewrite !andb_true_iff. intros (((Hk & Hp) & Hc) & Hcat).
  repeat split.
  - destruct keep_kw; [exact Hk|reflexivity].
  - destruct keep_pref; [exact Hp|reflexivity].
  - destruct keep_city; [exact Hc|reflexivity].
  - destruct keep_cats; [exact Hcat|reflexivity].
Qed.

Lemma join_head (sep x : jsstr) (r : list jsstr) :
  x <> [] -> hd_error (join sep (x :: r)) = hd_error x.
Proof.
  intros Hx. destruct x as [|c x]; [contradiction|].
  destruct r; reflexivity.
Qed.

(** X19: The summary is the generic text exactly when no criterion is given;
    otherwise it starts with the clause of the first criterion given. *)
Theorem summary_generic_iff_no_criteria (kw pref city : jsstr) (cats : list jsstr) :
  Results.summary kw pref city cats = Results.SHOW_ALL
  <-> kw = [] /\ pref = [] /\ city = [] /\ cats = [].
Proof.
  split.
  - intros Hsum. apply (f_equal hd_error) in Hsum. revert Hsum.
    unfold Results.summary. cbv zeta.
    destruct kw as [|k kw], pref as [|p pref], city as [|c city], cats as [|a cats];
      cbn [nonempty bool_decide decide_rel app]; simpl bool_decide;
      cbv iota;
      try (intros _; repeat split; reflexivity);
      rewrite join_head by (vm_compute; discriminate);
      vm_compute; intros Hhead; discriminate Hhead.
  - intros (-> & -> & -> & ->). reflexivity.
Qed.


(** ** Keyword trimming and the shortcuts into the result page *)

Lemma trimStart_app_white (a s : jsstr) :
  forallb is_white a = true -> trimStart (a ++ s) = trimStart s.
Proof.
  induction a as [|c a IH]; simpl; [reflexivity|].
  intros [Hc Ha]%andb_prop. rewrite Hc. auto.
Qed.

Lemma trimStart_all_white (s : jsstr) :
  trimStart s = [] -> forallb is_white s = true.
Proof.
  induction s as [|c s IH]; simpl; [reflexivity|].
  destruct (is_white c); [exact IH|discriminate].
Qed.

Lemma trimStart_app (s b : jsstr) :
  trimStart s <> [] -> trimStart (s ++ b) = trimStart s ++ b.
Proof.
  induction s as [|c s IH]; simpl; [contradiction|].
  destruct (is_white c); [exact IH|reflexivity].
Qed.

Lemma trimStart_clean (s : jsstr) : starts_clean (trimStart s).
Proof.
  induction s as [|c s IH]; simpl; [exact I|].
  destruct (is_white c) eqn:Hc; [exact IH|exact Hc].
Qed.

Lemma trimStart_of_clean (s : jsstr) : starts_clean s -> trimStart s = s.
Proof. destruct s as [|c s]; simpl; [reflexivity|]. by intros ->. Qed.

(** What [trimStart] removes is white space. *)
Lemma trimStart_split (s : jsstr) :
  exists a, s = a ++ trimStart s /\ forallb is_white a = true.
Proof.
  induction s as [|c s (a & Hs & Ha)]; simpl.
  - by exists [].
  - destruct (is_white c) eqn:Hc.
    + exists (c :: a). simpl. rewrite Hc, Ha. split; [by f_equal|reflexivity].
    + by exists [].
Qed.

Lemma forallb_reverse {A} (f : A -> bool) (l : list A) :
  forallb f (reverse l) = forallb f l.
Proof.
  induction l as [|a l IH]; [reflexivity|].
  rewrite reverse_cons, forallb_app, IH. simpl.
  rewrite andb_true_r. apply andb_comm.
Qed.

Lemma trimEnd_app_white (t b : jsstr) :
  forallb is_white b = true -> trimEnd (t ++ b) = trimEnd t.
Proof.
  intros Hb. unfold trimEnd. rewrite reverse_app, trimStart_app_white; [reflexivity|].
  by rewrite forallb_reverse.
Qed.

(** What [trimEnd] removes is white space, at the end. *)
Lemma trimEnd_split (t : jsstr) :
  exists b, t = trimEnd t ++ b /\ forallb is_white b = true.
Proof.
  destruct (trimStart_split (reverse t)) as (a & Hs & Ha).
  exists (reverse a). split; [|by rewrite forallb_reverse].
  unfold trimEnd. rewrite <- reverse_app, <- Hs. by rewrite reverse_involutive.
Qed.

Lemma trimEnd_clean (t : jsstr) : starts_clean t -> starts_clean (trimEnd t).
Proof.
  intros Ht. destruct (trimEnd_split t) as (b & Hs & _).
  destruct (trimEnd t) as [|c r]; [exact I|].
  rewrite Hs in Ht. exact Ht.
Qed.

Lemma trimEnd_idem (t : jsstr) : trimEnd (trimEnd t) = trimEnd t.
Proof.
  unfold trimEnd. rewrite reverse_involutive.
  rewrite (trimStart_of_clean (trimStart _)); [reflexivity|apply trimStart_clean].
Qed.

Lemma trim_idem (s : jsstr) : trim (trim s) = trim s.
Proof.
  unfold trim. rewrite (trimStart_of_clean (trimEnd _)).
  - apply trimEnd_idem.
  - apply trimEnd_clean, trimStart_clean.
Qed.

Lemma trim_padding (a s b : jsstr) :
  forallb is_white a = true -> forallb is_white b = true ->
  trim (a ++ s ++ b) = trim s.
Proof.
  intros Ha Hb. unfold trim. rewrite trimStart_app_white by exact Ha.
  destruct (trimStart s) as [|c r] eqn:Hs.
  - apply trimStart_all_white in Hs.
    rewrite trimStart_white; [reflexivity|].
    by rewrite forallb_app, Hs, Hb.
  - rewrite trimStart_app by (rewrite Hs; discriminate).
    rewrite Hs. by apply trimEnd_app_white.
Qed.

(** What [trim] returns has no white space at either end. *)
Lemma trim_clean (s : jsstr) :
  starts_clean (trim s) /\ starts_clean (reverse (trim s)).
Proof.
  split.
  - apply trimEnd_clean, trimStart_clean.
  - unfold trim, trimEnd. rewrite reverse_involutive. apply trimStart_clean.
Qed.

(** X21: White space around the keyword does not matter: the keyword the search
    uses has none at either end, and padding the field on both sides with
    white space leaves the keyword and everything the search writes as they
    are. *)
Theorem keyword_padding_ignored (toLowerCase : jsstr -> jsstr) (p : Results.Page)
    (a b : jsstr) :
  forallb is_white a = true -> forallb is_white b = true ->
  let q := Results.with_keyword (a ++ Results.resultsKeyword p ++ b) p in
  Results.keyword q = Results.keyword p
  /\ starts_clean (Results.keyword p)
  /\ starts_clean (reverse (Results.keyword p))
  /\ exists p1 q1,
       Results.runResultsSearch toLowerCase p = Ok tt p1
       /\ Results.runResultsSearch toLowerCase q = Ok tt q1
       /\ Results.resultsTitle q1 = Results.resultsTitle p1
       /\ Results.resultsDesc q1 = Results.resultsDesc p1
       /\ Results.resultsGrid q1 = Results.resultsGrid p1.
Proof.
  intros Ha Hb q.
  assert (Hor : forall v : jsstr, or_default (Some v) [] = v) by (by intros [|c v]).
  assert (Hk : Results.keyword q = Results.keyword p).
  { unfold Results.keyword, q, Results.with_keyword. cbn [Results.resultsKeyword].
    rewrite !Hor. by apply trim_padding. }
  split; [exact Hk|].
  split; [unfold Results.keyword; apply trim_clean|].
  split; [unfold Results.keyword; apply trim_clean|].
  do 2 eexists. rewrite !runResultsSearch_run.
  split; [reflexivity|]. split; [reflexivity|].
  rewrite Hk. repeat split; reflexivity.
Qed.

Lemma keyword_padding_ignored_witness :
  Results.keyword
    (Results.with_keyword (js " 　" ++ Results.resultsKeyword spaced_keyword_form ++ js "  ")
       spaced_keyword_form)
  = Results.keyword spaced_keyword_form.
Proof.
  destruct (keyword_padding_ignored (fun s => s) spaced_keyword_form (js " 　") (js "  "))
    as [Hk _].
  - vm_compute; reflexivity.
  - vm_compute; reflexivity.
  - exact Hk.
Defined.

(** X22: The header search is the form search: submitting [input] in the header
    leaves the trimmed input in the keyword field of the result page and
    writes what a search of the form with [input] as keyword writes; the
    region and categories left in the form still apply. *)
Theorem globalSearch_as_form_search (toLowerCase : jsstr -> jsstr) (input : jsstr)
    (p : Results.Page) :
  exists p1 p2,
    Shortcuts.globalSearch toLowerCase input p = Ok tt p1
    /\ Results.runResultsSearch toLowerCase (Results.with_keyword input p) = Ok tt p2
    /\ Results.resultsKeyword p1 = trim input
    /\ Results.keyword p1 = Results.keyword p2
    /\ Results.pref p1 = Results.pref p /\ Results.city p1 = Results.city p
    /\ Results.selectedCats p1 = Results.selectedCats p
    /\ Results.resultsTitle p1 = Results.resultsTitle p2
    /\ Results.resultsDesc p1 = Results.resultsDesc p2
    /\ Results.resultsGrid p1 = Results.resultsGrid p2.
Proof.
  assert (Hor : forall v : jsstr, or_default (Some v) [] = v) by (by intros [|c v]).
  unfold Shortcuts.globalSearch. cbv zeta. unfold eff_bind, modify at 1.
  do 2 eexists. rewrite !runResultsSearch_run.
  split; [reflexivity|]. split; [reflexivity|].
  assert (Hk : Results.keyword (Results.with_keyword (trim (or_default (Some input) [])) p)
               = Results.keyword (Results.with_keyword input p)).
  { unfold Results.keyword, Results.with_keyword. cbn [Results.resultsKeyword].
    rewrite !Hor. apply trim_idem. }
  split; [cbn [Results.resultsKeyword Results.with_keyword Results.with_grid
               Results.with_title_desc]; by rewrite Hor|].
  split; [exact Hk|].
  repeat split; simpl; try reflexivity.
  - change (Results.summary
              (Results.keyword (Results.with_keyword (trim (or_default (Some input) [])) p))
              (Results.pref p) (Results.city p) (Results.selectedCats p)
            = Results.summary (Results.keyword (Results.with_keyword input p))
                (Results.pref p) (Results.city p) (Results.selectedCats p)).
    by rewrite Hk.
  - change (Results.grid_of
              (Results.filtered toLowerCase
                 (Results.keyword (Results.with_keyword (trim (or_default (Some input) [])) p))
                 (Results.pref p) (Results.city p) (Results.selectedCats p))
            = Results.grid_of
                (Results.filtered toLowerCase (Results.keyword (Results.with_keyword input p))
                   (Results.pref p) (Results.city p) (Results.selectedCats p))).
    by rewrite Hk.
Qed.

Lemma selected_after_click (category : option jsstr) (boxes : list (jsstr * bool)) :
  fst <$> List.filter snd
            ((fun b => (fst b, bool_decide (Some (fst b) = category))) <$> boxes)
  = List.filter (fun v => bool_decide (Some v = category)) (fst <$> boxes).
Proof.
  induction boxes as [|[v c] boxes IH]; [reflexivity|]. cbn [fmap list_fmap List.filter fst snd].
  destruct (bool_decide (Some v = category)); cbn [fmap list_fmap]; by rewrite IH.
Qed.

(** X23: A category button checks exactly the boxes whose value is its category
    and unchecks the others (all of them when it has no [data-category]),
    then searches: the keyword and region left in the form still apply, and
    unless no box has the category every spot shown is of that category. *)
Theorem categoryClick_selects (toLowerCase : jsstr -> jsstr) (category : option jsstr)
    (p : Results.Page) :
  exists p',
    Shortcuts.categoryClick toLowerCase category p = Ok tt p'
    /\ Results.selectedCats p'
       = List.filter (fun v => bool_decide (Some v = category))
           (fst <$> Results.categoryBoxes p)
    /\ Results.keyword p' = Results.keyword p
    /\ Results.pref p' = Results.pref p
    /\ Results.city p' = Results.city p
    /\ Results.resultsGrid p'
       = Results.grid_of
           (Results.filtered toLowerCase (Results.keyword p) (Results.pref p)
              (Results.city p) (Results.selectedCats p'))
    /\ forall s,
         s ∈ Results.filtered toLowerCase (Results.keyword p) (Results.pref p)
               (Results.city p) (Results.selectedCats p') ->
         Results.selectedCats p' = [] \/ Some (s_category s) = category.
Proof.
  unfold Shortcuts.categoryClick, eff_bind, modify at 1.
  eexists. rewrite runResultsSearch_run. split; [reflexivity|].
  set (q := Shortcuts.with_boxes _ p).
  assert (Hsel : Results.selectedCats q
                 = List.filter (fun v => bool_decide (Some v = category))
                     (fst <$> Results.categoryBoxes p))
    by apply selected_after_click.
  split; [exact Hsel|]. split; [reflexivity|]. split; [reflexivity|].
  split; [reflexivity|]. split; [reflexivity|].
  intros s. change (Results.selectedCats (Results.with_grid _ _)) with (Results.selectedCats q).
  rewrite filtered_as_filter, list_elem_of_In, filter_In. intros [_ Hm].
  unfold matches in Hm. apply andb_prop in Hm as [_ Hcat].
  apply orb_prop in Hcat as [Hcat|Hcat].
  - left. by apply bool_decide_eq_true_1 in Hcat.
  - right. apply bool_decide_eq_true_1 in Hcat.
    rewrite Hsel, list_elem_of_In, filter_In in Hcat. destruct Hcat as [_ Hcat].
    by apply bool_decide_eq_true_1 in Hcat.
Qed.

(** ** Prefecture and city lists *)

Lemma options_appended (l : list jsstr) (s : Region.State) :
  forEach (fun c => Region.appendOption {| Region.opt_value := c; Region.opt_text := c |}) l s
  = Ok tt (Region.with_options
             (Region.cityOptions s
              ++ ((fun c => {| Region.opt_value := c; Region.opt_text := c |}) <$> l)) s).
Proof.
  revert s. induction l as [|c l IH]; intros s; simpl.
  - unfold eff_ret. rewrite app_nil_r. by destruct s.
  - unfold eff_bind, Region.appendOption, modify at 1. rewrite IH. simpl.
    rewrite <- app_assoc. reflexivity.
Qed.

(** X24: Choosing one of the three prefectures of [CITY_DATA] replaces the
    options of the city list by that prefecture's cities, in order, each
    with its name as value and text, and enables the list; what the list
    held before does not matter. *)
Theorem prefChange_lists_cities (pref : jsstr) (cities : list jsstr) (s : Region.State) :
  (pref, cities) ∈ Region.CITY_DATA ->
  Region.prefValue s = pref ->
  exists s',
    Region.prefChange s = Ok tt s'
    /\ Region.cityOptions s'
       = (fun c => {| Region.opt_value := c; Region.opt_text := c |}) <$> cities
    /\ Region.cityDisabled s' = false
    /\ Region.prefValue s' = pref.
Proof.
  intros Hin Hpref.
  assert (Hget : Region.get_property pref = Region.CityArray cities /\ cities <> []).
  { unfold Region.CITY_DATA in Hin.
    repeat (apply elem_of_cons in Hin as [[= -> ->]|Hin];
            [split; [vm_compute; reflexivity|discriminate]|]).
    by apply elem_of_nil in Hin. }
  destruct Hget as [Hget Hne].
  unfold Region.prefChange, eff_bind, gets, modify at 1. rewrite Hpref, Hget.
  rewrite (bool_decide_eq_true_2 _ Hne), options_appended.
  eexists. split; [reflexivity|]. simpl. auto.
Qed.

Lemma prefChange_lists_cities_witness :
  exists s',
    Region.prefChange
      {| Region.prefValue := js "京都府";
         Region.cityOptions := [{| Region.opt_value := js "青森市"; Region.opt_text := js "青森市" |}];
         Region.cityDisabled := true |} = Ok tt s'
    /\ Region.opt_value <$> Region.cityOptions s' = [js "京都市"; js "宇治市"; js "亀岡市"]
    /\ Region.cityDisabled s' = false.
Proof.
  destruct (prefChange_lists_cities (js "京都府") [js "京都市"; js "宇治市"; js "亀岡市"]
              {| Region.prefValue := js "京都府";
                 Region.cityOptions :=
                   [{| Region.opt_value := js "青森市"; Region.opt_text := js "青森市" |}];
                 Region.cityDisabled := true |})
    as (s' & Hrun & Hopts & Hdis & _).
  - unfold Region.CITY_DATA. repeat constructor.
  - reflexivity.
  - exists s'. split; [exact Hrun|]. split; [|exact Hdis].
    rewrite Hopts. reflexivity.
Defined.

(** X25: Every other value: the list gets the one placeholder option with an
    empty value and is disabled, unless the value names a function that
    objects inherit and that takes arguments ([constructor],
    [hasOwnProperty], ...): then [CITY_DATA[pref]] is that function, its
    [length] is truthy, [forEach] is not a function, and the listener throws
    a [TypeError] with the options already cleared and [disabled] left as it
    was. *)
Theorem prefChange_other_values (s : Region.State) :
  Region.prefValue s ∉ Region.CITY_DATA.*1 ->
  ((forall n, (Region.prefValue s, S n) ∉ Region.inherited_functions) ->
   Region.prefChange s
   = Ok tt {| Region.prefValue := Region.prefValue s;
              Region.cityOptions :=
                [{| Region.opt_value := []; Region.opt_text := Region.PLACEHOLDER |}];
              Region.cityDisabled := true |})
  /\ (forall n, (Region.prefValue s, S n) ∈ Region.inherited_functions ->
      Region.prefChange s
      = Throw TypeError {| Region.prefValue := Region.prefValue s;
                           Region.cityOptions := [];
                           Region.cityDisabled := Region.cityDisabled s |}).
Proof.
  intros Hown.
  assert (Hfind : List.find (fun kv => str_eqb (fst kv) (Region.prefValue s)) Region.CITY_DATA
                  = None).
  { apply find_absent. intros [k v] Hkv. apply bool_decide_eq_false_2. intros Heq.
    apply Hown. simpl in Heq. subst k.
    apply list_elem_of_fmap. exists (Region.prefValue s, v). by split. }
  unfold Region.prefChange, eff_bind, gets, modify at 1, Region.get_property.
  rewrite Hfind. clear Hfind Hown.
  remember (Region.prefValue s) as pref eqn:Hp.
  assert (Hcases :
    (exists n, (pref, n) ∈ Region.inherited_functions
               /\ List.find (fun kv => str_eqb (fst kv) pref) Region.inherited_functions
                  = Some (pref, n))
    \/ List.find (fun kv => str_eqb (fst kv) pref) Region.inherited_functions = None
       /\ forall n, (pref, n) ∉ Region.inherited_functions).
  { destruct (List.find (fun kv => str_eqb (fst kv) pref) Region.inherited_functions)
      as [[k n]|] eqn:Hf.
    - left. apply find_some in Hf as [Hin Hk]. apply bool_decide_eq_true_1 in Hk.
      simpl in Hk. subst k. exists n. split; [by apply list_elem_of_In|reflexivity].
    - right. split; [reflexivity|]. intros n Hin.
      apply list_elem_of_In in Hin.
      pose proof (find_none _ _ Hf _ Hin) as Hk. simpl in Hk.
      by apply bool_decide_eq_false_1 in Hk. }
  assert (Hfun : forall n m, (pref, n) ∈ Region.inherited_functions ->
                 (pref, m) ∈ Region.inherited_functions -> n = m).
  { intros n m Hn Hm. unfold Region.inherited_functions in *.
    repeat (apply elem_of_cons in Hn as [Hn|Hn];
            [injection Hn as -> ->;
             repeat (apply elem_of_cons in Hm as [Hm|Hm];
                     [first [by injection Hm as <- | discriminate Hm]|]);
             by apply elem_of_nil in Hm|]).
    by apply elem_of_nil in Hn. }
  destruct Hcases as [(n & Hin & ->)|[-> Hnone]].
  - cbn [snd]. split.
    + intros Hnot. destruct n as [|n]; [subst pref; reflexivity|].
      exfalso. by apply (Hnot n).
    + intros m Hm. rewrite (Hfun n (S m) Hin Hm). subst pref. reflexivity.
  - split.
    + intros _. destruct (str_eqb pref (js "__proto__")); subst pref; reflexivity.
    + intros m Hm. exfalso. by eapply Hnone.
Qed.

Lemma prefChange_other_values_witness :
  Region.prefChange
    {| Region.prefValue := js "constructor"; Region.cityOptions := [];
       Region.cityDisabled := false |}
  = Throw TypeError {| Region.prefValue := js "constructor"; Region.cityOptions := [];
                       Region.cityDisabled := false |}.
Proof.
  destruct (prefChange_other_values
              {| Region.prefValue := js "constructor"; Region.cityOptions := [];
                 Region.cityDisabled := false |}) as [_ Hthrow].
  - vm_compute. intros Hin.
    repeat (apply elem_of_cons in Hin as [Hin|Hin]; [discriminate|]).
    by apply elem_of_nil in Hin.
  - apply (Hthrow 0%nat). unfold Region.inherited_functions. repeat constructor.
Defined.

(** ** Pseudo map: rendering the spots in range, radii and pins *)

Lemma map_cards_rendered (l : list Spot) (m : Map.State) :
  (forall s, s ∈ l -> s ∈ DUMMY_SPOTS) ->
  forEach (fun s => match make_card s with
                    | Some c => Map.appendChild (Article c)
                    | None => throw URIError
                    end) l m
  = Ok tt (Map.with_grid (Map.mapResultsGrid m ++ cards l) m).
Proof.
  revert m. induction l as [|s l IH]; intros m Hl; simpl.
  - unfold eff_ret, cards. simpl. rewrite app_nil_r. by destruct m.
  - destruct (dataset_card s) as [c Hc]; [apply Hl; constructor|].
    unfold eff_bind. rewrite Hc. unfold Map.appendChild, modify at 1.
    rewrite IH by (intros s' Hs'; apply Hl; by constructor).
    unfold cards. simpl. rewrite Hc. simpl. rewrite <- app_assoc. reflexivity.
Qed.

(** X26: [renderCircleResults] returns for every circle and every previous
    content of the grid: the circle is left alone, and the grid holds the
    one "nothing in range" paragraph when no spot is inside, otherwise one
    card per spot inside, in dataset order. *)
Theorem renderCircleResults_shows_inside (m : Map.State) :
  let inside := Map.inside (Map.circleState m) in
  inside `sublist_of` DUMMY_SPOTS
  /\ exists m',
       Map.renderCircleResults m = Ok tt m'
       /\ Map.circleState m' = Map.circleState m
       /\ (inside = [] -> Map.mapResultsGrid m' = [Paragraph Map.NOTHING_IN_RANGE])
       /\ (inside <> [] ->
           Forall2 (fun s ch => exists c, make_card s = Some c /\ ch = Article c)
             inside (Map.mapResultsGrid m')).
Proof.
  intros inside.
  assert (Hsub : inside `sublist_of` DUMMY_SPOTS) by apply filter_sublist.
  split; [exact Hsub|].
  unfold Map.renderCircleResults, eff_bind, modify at 1, gets. cbv zeta.
  change (Map.inside (Map.circleState (Map.with_grid [] m))) with inside.
  destruct (bool_decide (inside = [])) eqn:Hempty.
  - apply bool_decide_eq_true_1 in Hempty.
    eexists. split; [reflexivity|]. split; [reflexivity|]. split; [reflexivity|].
    intros Hne. contradiction.
  - apply bool_decide_eq_false_1 in Hempty.
    rewrite map_cards_rendered by (intros s Hs; by eapply sublist_elem_of).
    eexists. split; [reflexivity|]. split; [reflexivity|]. split; [contradiction|].
    intros _. simpl. apply cards_Forall2. intros s Hs. by eapply sublist_elem_of.
Qed.

(** The square root of a double is never below zero. *)
Lemma SFsqrt_not_below (x r : spec_float) :
  SFleb (S754_zero false) r = false -> SFleb (SFsqrt prec emax x) r = false.
Proof.
  intros Hr.
  assert (Hneg : r = S754_nan \/ r = S754_infinity true
                 \/ exists m e, r = S754_finite true m e).
  { destruct r as [sr|sr| |sr m e]; try destruct sr; try discriminate; eauto. }
  assert (Hshape : forall y, (y = S754_nan \/ (exists s, y = S754_zero s)
                              \/ y = S754_infinity false
                              \/ exists m e, y = S754_finite false m e) ->
                   SFleb y r = false).
  { intros y Hy.
    destruct Hneg as [->|[->|(m & e & ->)]];
      destruct Hy as [->|[[s ->]|[->|(m' & e' & ->)]]]; reflexivity. }
  apply Hshape. clear Hshape Hneg Hr.
  destruct x as [sx|sx| |sx mx ex]; simpl.
  - eauto.
  - destruct sx; eauto.
  - eauto.
  - destruct sx; [eauto|].
    destruct (SFsqrt_core_binary prec emax (Z.pos mx) ex) as [[mz ez] lz].
    unfold binary_round_aux.
    destruct (shr_fexp prec emax mz ez lz) as [mrs' e'].
    destruct (shr_fexp prec emax _ e' loc_Exact) as [mrs'' e''].
    destruct (shr_m mrs''); [eauto| |eauto].
    destruct (e'' <=? emax - prec)%Z; eauto 10.
Qed.

Lemma in_circle_bad_radius (c : Map.Circle) (s : Spot) :
  PrimFloat.leb 0 (Map.c_r c) = false -> Map.in_circle c s = false.
Proof.
  intros Hr. unfold Map.in_circle. destruct (Map.coord_of (s_id s)); [|reflexivity].
  rewrite leb_spec, sqrt_spec. apply SFsqrt_not_below.
  rewrite leb_spec in Hr. exact Hr.
Qed.

(** X27: A radius that is not at least zero (a negative number or [NaN]) selects
    no spot, wherever the circle is. *)
Theorem bad_radius_selects_nothing (c : Map.Circle) :
  PrimFloat.leb 0 (Map.c_r c) = false -> Map.inside c = [].
Proof.
  intros Hr. unfold Map.inside.
  induction DUMMY_SPOTS as [|s l IH]; simpl; [reflexivity|].
  by rewrite in_circle_bad_radius.
Qed.

Lemma bad_radius_selects_nothing_witness :
  PrimFloat.leb 0 (-5) = false
  /\ Map.inside {| Map.c_x := 300; Map.c_y := 200; Map.c_r := -5 |} = [].
Proof.
  split; [vm_compute; reflexivity|].
  apply (bad_radius_selects_nothing {| Map.c_x := 300; Map.c_y := 200; Map.c_r := -5 |}).
  vm_compute; reflexivity.
Defined.

(** X28: The boundary counts: a circle centred on a spot of the dataset holds
    that spot for every radius that is at least zero, zero included. *)
Theorem circle_on_spot_holds_it (s : Spot) (coord : Map.Coord) (r : float) :
  s ∈ DUMMY_SPOTS ->
  Map.coord_of (s_id s) = Some coord ->
  PrimFloat.leb 0 r = true ->
  s ∈ Map.inside {| Map.c_x := Map.p_x coord; Map.c_y := Map.p_y coord; Map.c_r := r |}.
Proof.
  intros Hs Hcoord Hr.
  apply list_elem_of_In, filter_In. split; [by apply list_elem_of_In|].
  unfold Map.in_circle. rewrite Hcoord. cbn [Map.c_x Map.c_y Map.c_r].
  revert Hcoord.
  repeat (apply elem_of_cons in Hs as [->|Hs];
          [vm_compute; intros [= <-]; vm_compute; exact Hr|]).
  by apply elem_of_nil in Hs.
Qed.

Lemma circle_on_spot_holds_it_witness :
  spot_at 2 ∈ Map.inside {| Map.c_x := 200; Map.c_y := 140; Map.c_r := 0 |}.
Proof.
  apply (circle_on_spot_holds_it (spot_at 2) {| Map.p_x := 200; Map.p_y := 140 |} 0).
  - vm_compute. repeat constructor.
  - vm_compute. reflexivity.
  - vm_compute. reflexivity.
Defined.

(** Every spot of the dataset has coordinates, so [renderPins] leaves exactly
    one pin per spot, in dataset order, at the spot's coordinates and with
    its title; pins drawn before are removed, and neither the circle nor
    its element is touched. *)
Theorem renderPins_one_per_spot (m : MapView.State) :
  exists m',
    MapView.renderPins m = Ok tt m'
    /\ MapView.circleState m' = MapView.circleState m
    /\ MapView.mapCircle m' = MapView.mapCircle m
    /\ Forall2 (fun s pin =>
                  Map.coord_of (s_id s)
                  = Some {| Map.p_x := MapView.pin_left pin; Map.p_y := MapView.pin_top pin |}
                  /\ MapView.pin_title pin = s_title s)
         DUMMY_SPOTS (MapView.pins m').
Proof.
  eexists. split; [vm_compute; reflexivity|].
  split; [reflexivity|]. split; [reflexivity|].
  cbn [MapView.pins]. unfold DUMMY_SPOTS.
  repeat (constructor; [split; vm_compute; reflexivity|]). constructor.
Qed.

(** ** Model overlay *)


(** X30: The AR button of the detail page of [s5]: in a document with the AR
    area, the model viewer and both buttons, [showDetail('s5')] leaves on
    [#detailArBtn] a handler that opens the overlay with the craft model. *)
Theorem ar_button_opens_overlay (w : World) (s : Overlay.State) :
  (forall sel, sel ∈ detail_selectors -> is_Some (dom w !! sel)) ->
  is_Some (Overlay.modelOverlay s) -> is_Some (Overlay.overlayModelViewer s) ->
  exists w' h s',
    Detail.showDetail (js "s5") w = Ok tt w'
    /\ onclick <$> dom w' !! "#detailArBtn"%string = Some (Some h)
    /\ Overlay.run_handler h s = Ok tt s'
    /\ Overlay.modelOverlay s'
       = Some {| Overlay.ov_hidden := false; Overlay.ov_aria_hidden := Some (js "false") |}
    /\ Overlay.overlayModelViewer s'
       = Some {| Overlay.v_src := Some (js "models/craft.glb");
                 Overlay.v_ios_src := Some (js "models/craft.usdz") |}.
Proof.
  intros Hall [o Ho] [v Hv].
  assert (Hsel : forall sel, sel ∈ detail_selectors -> exists e, dom w !! sel = Some e)
    by (intros sel Hin; destruct (Hall sel Hin); eauto).
  destruct (Hsel "#detailTitle"%string) as [e1 H1]; [unfold detail_selectors; repeat constructor|].
  destruct (Hsel "#detailRegion"%string) as [e2 H2]; [unfold detail_selectors; repeat constructor|].
  destruct (Hsel "#detailDesc"%string) as [e3 H3]; [unfold detail_selectors; repeat constructor|].
  destruct (Hsel "#detailImage"%string) as [e4 H4]; [unfold detail_selectors; repeat constructor|].
  destruct (Hsel "#detailExtra"%string) as [e5 H5]; [unfold detail_selectors; repeat constructor|].
  destruct (Hsel "#detailArArea"%string) as [e6 H6]; [unfold detail_selectors; repeat constructor|].
  destruct (Hsel "#detailModelViewer"%string) as [e7 H7];
    [unfold detail_selectors; repeat constructor|].
  destruct (Hsel "#detailArBtn"%string) as [e8 H8]; [unfold detail_selectors; repeat constructor|].
  destruct (Hsel "#mvArBtn"%string) as [e9 H9]; [unfold detail_selectors; repeat constructor|].
  assert (Hfind : List.find (fun x => str_eqb (s_id x) (js "s5")) DUMMY_SPOTS
                  = Some (spot_at 4)) by (vm_compute; reflexivity).
  assert (Hfill : encodeURIComponent (s_color (spot_at 4)) = Some (js "%23865a3f"))
    by (vm_compute; reflexivity).
  assert (Hid : str_eqb (s_id (spot_at 4)) (js "s5") = true) by (vm_compute; reflexivity).
  detail_unfold. rewrite Hfind, H1, H2, H3, H4, H5, H6, H7, H8, H9, Hfill, Hid.
  cbn [bool_decide andb is_Some decide_rel]; simpl bool_decide.
  do 3 eexists. split; [reflexivity|].
  unfold with_dom; cbn [dom]. split.
  - detail_lookups. rewrite H8. reflexivity.
  - unfold Overlay.run_handler, Overlay.openModelOverlay. rewrite Ho, Hv.
    split; [reflexivity|]. split; reflexivity.
Qed.

Lemma ar_button_opens_overlay_witness :
  exists w' h,
    Detail.showDetail (js "s5") (sample_world "#detail:s5") = Ok tt w'
    /\ onclick <$> dom w' !! "#detailArBtn"%string = Some (Some h).
Proof.
  destruct (ar_button_opens_overlay (sample_world "#detail:s5")
              {| Overlay.modelOverlay :=
                   Some {| Overlay.ov_hidden := true; Overlay.ov_aria_hidden := None |};
                 Overlay.overlayModelViewer :=
                   Some {| Overlay.v_src := None; Overlay.v_ios_src := None |};
                 Overlay.modelOverlayClose := true;
                 Overlay.close_focus_calls := 0 |})
    as (w' & h & s' & Hrun & Hclick & _).
  - intros sel Hsel.
    repeat (apply elem_of_cons in Hsel as [->|Hsel]; [vm_compute; eauto|]).
    by apply elem_of_nil in Hsel.
  - simpl. eauto.
  - simpl. eauto.
  - exists w', h. split; assumption.
Defined.
